(** * Files: batch operations over a glob-resolved set of paths

    A shallow embedding of [src/files.js] (the [Files] class and its helper
    [targetDirectoryWithTrailingSlash]) together with the properties stated
    for it in the specification.

    Conventions of the embedding.
    - A JavaScript string is the list of its UTF-16 code units ([jsstring]).
    - [path] is Node's POSIX [path] module; the three functions the source
      calls ([basename], [dirname], [join]) are transcribed below.
    - [glob], [fs], [fs-extra] and [JSON] are collaborators of the class:
      they are an interface ([Platform], [Json]) every method is parametric
      in.  Each primitive may throw; what it throws propagates, untouched, to
      the caller of the method, as in the source, which has no [try].
    - A method is a function of the state of a run: the instance ([this]),
      the world outside it, and the log of the platform calls issued so far
      ([calls]).  The log is not in the source: it is what the statements
      about the order of the calls are made of.
    - A default argument of the source is passed explicitly
      ([default_encoding] for [pEncoding = 'utf-8']).
    - A handler passed by the caller is a function of what the method hands
      it and of the world.  The handler of [alter] and of [alterJSON] is
      handed the content; the handler of [all] is handed the array of the
      working set itself, and may change what the array holds.
    - [colorLog] and the [verbose] flag only print to the console and are
      left out. *)

From stdpp Require Import base numbers list option strings gmap.
From Stdlib Require Import ZArith NArith Lia Ascii.

Local Open Scope N_scope.
Local Open Scope list_scope.

(** ** JavaScript strings *)

Definition jsstring : Type := list N.

(** An ASCII literal as a JavaScript string. *)
Definition js (s : string) : jsstring :=
  map N_of_ascii (String.list_ascii_of_string s).

(** [s.lastIndexOf(c)] for a one-unit search string: the index of the last
    occurrence of [c], or [-1]. *)
Fixpoint lastIndexOf_from (i : Z) (found : Z) (s : jsstring) (c : N) : Z :=
  match s with
  | [] => found
  | x :: r => lastIndexOf_from (i + 1) (if x =? c then i else found) r c
  end.

Definition lastIndexOf (s : jsstring) (c : N) : Z :=
  lastIndexOf_from 0 (-1) s c.

Definition jslength (s : jsstring) : Z := Z.of_nat (length s).

(** ** Node's [path] module (POSIX flavour) *)

Module path.

Definition CHAR_FORWARD_SLASH : N := 47.
Definition CHAR_DOT : N := 46.

Definition isPathSeparator (c : N) : bool := c =? CHAR_FORWARD_SLASH.

Fixpoint dropWhile (p : N -> bool) (s : jsstring) : jsstring :=
  match s with
  | [] => []
  | c :: r => if p c then dropWhile p r else s
  end.

Fixpoint takeWhile (p : N -> bool) (s : jsstring) : jsstring :=
  match s with
  | [] => []
  | c :: r => if p c then c :: takeWhile p r else []
  end.

Definition notSeparator (c : N) : bool := negb (isPathSeparator c).

(** [path.basename(p)]: the scan runs from the end of the string, skips the
    trailing separators, and keeps the units up to the next separator. *)
Definition basename (p : jsstring) : jsstring :=
  rev (takeWhile notSeparator (dropWhile isPathSeparator (rev p))).

(** [path.dirname(p)]: the scan runs from the end down to index 1, skips the
    trailing separators and the last segment, and cuts at the separator it
    stops on. *)
Definition dirname (p : jsstring) : jsstring :=
  match p with
  | [] => [CHAR_DOT]
  | c :: t =>
      let hasRoot := isPathSeparator c in
      match dropWhile notSeparator (dropWhile isPathSeparator (rev t)) with
      | [] => if hasRoot then [CHAR_FORWARD_SLASH] else [CHAR_DOT]
      | _ :: before =>
          match hasRoot, before with
          | true, [] => [CHAR_FORWARD_SLASH; CHAR_FORWARD_SLASH]
          | _, _ => c :: rev before
          end
      end
  end.

(** The segments between separators, empty ones included. *)
Fixpoint segments (s : jsstring) : list jsstring :=
  match s with
  | [] => [[]]
  | c :: r =>
      if isPathSeparator c then [] :: segments r
      else match segments r with
           | seg :: segs => (c :: seg) :: segs
           | [] => [[c]]
           end
  end.

Definition dotdot : jsstring := [CHAR_DOT; CHAR_DOT].

Definition jseq (a b : jsstring) : bool := bool_decide (a = b).

(** [normalizeString]: empty and [.] segments are dropped, [..] removes the
    segment before it, or is kept when there is none to remove and the path
    is relative.  [res] is the result so far, last segment first. *)
Fixpoint normalizeSegments (allowAboveRoot : bool) (res segs : list jsstring)
  : list jsstring :=
  match segs with
  | [] => rev res
  | seg :: r =>
      if jseq seg [] || jseq seg [CHAR_DOT] then
        normalizeSegments allowAboveRoot res r
      else if jseq seg dotdot then
        match res with
        | top :: res' =>
            if jseq top dotdot then
              normalizeSegments allowAboveRoot
                (if allowAboveRoot then dotdot :: res else res) r
            else normalizeSegments allowAboveRoot res' r
        | [] =>
            normalizeSegments allowAboveRoot
              (if allowAboveRoot then [dotdot] else []) r
        end
      else normalizeSegments allowAboveRoot (seg :: res) r
  end.

Fixpoint joinSegments (segs : list jsstring) : jsstring :=
  match segs with
  | [] => []
  | [seg] => seg
  | seg :: r => seg ++ CHAR_FORWARD_SLASH :: joinSegments r
  end.

Definition normalizeString (p : jsstring) (allowAboveRoot : bool) : jsstring :=
  joinSegments (normalizeSegments allowAboveRoot [] (segments p)).

Definition startsWithSeparator (p : jsstring) : bool :=
  match p with c :: _ => isPathSeparator c | [] => false end.

Definition endsWithSeparator (p : jsstring) : bool :=
  match last p with Some c => isPathSeparator c | None => false end.

(** [path.normalize(p)]. *)
Definition normalize (p : jsstring) : jsstring :=
  match p with
  | [] => [CHAR_DOT]
  | _ =>
      let isAbsolute := startsWithSeparator p in
      let trailingSeparator := endsWithSeparator p in
      match normalizeString p (negb isAbsolute) with
      | [] =>
          if isAbsolute then [CHAR_FORWARD_SLASH]
          else if trailingSeparator then [CHAR_DOT; CHAR_FORWARD_SLASH]
          else [CHAR_DOT]
      | q =>
          (if isAbsolute then [CHAR_FORWARD_SLASH] else [])
            ++ q ++ (if trailingSeparator then [CHAR_FORWARD_SLASH] else [])
      end
  end.

(** [path.join(a, b)]: the non-empty arguments are glued with a separator
    and the result is normalized; with nothing to glue the result is [.]. *)
Definition join (a b : jsstring) : jsstring :=
  match a, b with
  | [], [] => [CHAR_DOT]
  | [], _ => normalize b
  | _, [] => normalize a
  | _, _ => normalize (a ++ CHAR_FORWARD_SLASH :: b)
  end.

End path.

(** ** Destination of a move or a copy (files.js, lines 48-60) *)

Definition targetDirectoryWithTrailingSlash (pDestination pFilePath : jsstring)
  : jsstring :=
  if (lastIndexOf pDestination path.CHAR_FORWARD_SLASH
        =? jslength pDestination - 1)%Z
  then path.join pDestination (path.basename pFilePath)
  else pDestination.

(** ** Outcomes of a call *)

(** What a JavaScript call can throw here: the [TypeError] of a property read
    on [null], the [SyntaxError] of [JSON.parse], and the errno-style failure
    of a filesystem primitive. *)
Inductive error : Type :=
| TypeError (message : string)
| SyntaxError (message : string)
| SystemError (code : string).

Inductive outcome (A : Type) : Type :=
| Normal (a : A)
| Thrown (e : error).

Arguments Normal {A} a.
Arguments Thrown {A} e.

Definition isNormal {A} (o : outcome A) : bool :=
  match o with Normal _ => true | Thrown _ => false end.

(** ** The collaborators: [glob], [fs], [fs-extra], [JSON] *)

(** The calls the class makes on the platform, as they are logged. *)
Inductive call : Type :=
| GlobSync (pattern : jsstring)
| LstatSync (p : jsstring)
| ExistsSync (p : jsstring)
| ReadFileSync (p encoding : jsstring)
| WriteFileSync (p data encoding : jsstring)
| AppendFileSync (p data encoding : jsstring)
| EnsureDirSync (p : jsstring)
| RemoveSync (p : jsstring)
| MoveSync (src dest : jsstring)
| CopySync (src dest : jsstring).

(** What [fs.lstatSync(p)] is asked about. *)
Record Stats : Type := { isFile : bool; isDirectory : bool }.

(** The platform the class runs on.  [World] is everything outside the
    [Files] instance.  The two queries do not change it; every other
    primitive returns the world it leaves behind, also when it throws. *)
Class Platform (World : Type) : Type := {
  prim_globSync : jsstring -> World -> outcome (list jsstring);
  prim_lstatSync : jsstring -> World -> outcome Stats;
  prim_existsSync : jsstring -> World -> bool;
  prim_readFileSync : jsstring -> jsstring -> World -> outcome jsstring;
  prim_writeFileSync : jsstring -> jsstring -> jsstring -> World -> outcome unit * World;
  prim_appendFileSync : jsstring -> jsstring -> jsstring -> World -> outcome unit * World;
  prim_ensureDirSync : jsstring -> World -> outcome unit * World;
  prim_removeSync : jsstring -> World -> outcome unit * World;
  prim_moveSync : jsstring -> jsstring -> World -> outcome unit * World;
  prim_copySync : jsstring -> jsstring -> World -> outcome unit * World
}.

(** [JSON.parse] and [JSON.stringify(v, null, spaces)] over the platform's
    values. *)
Class Json (value : Type) : Type := {
  JSON_parse : jsstring -> outcome value;
  JSON_stringify : value -> option N -> outcome jsstring
}.

(** ** The [Files] instance and the monad of its methods *)

Record Files : Type := { glob : jsstring; files : list jsstring }.

Record state (World : Type) : Type :=
  { this : Files; world : World; calls : list call }.

Arguments this {World} s.
Arguments world {World} s.
Arguments calls {World} s.

Definition M (World A : Type) : Type := state World -> outcome A * state World.

Definition array_length {A} (l : list A) : Z := Z.of_nat (length l).

Definition default_encoding : jsstring := js "utf-8".
Definition LINE_FEED : N := 10.

Section Methods.

Context {World : Type} {platform : Platform World}.
Context {value : Type} {json : Json value}.

Local Abbreviation M := (M World).

Definition ret {A} (a : A) : M A := fun st => (Normal a, st).

Definition throw {A} (e : error) : M A := fun st => (Thrown e, st).

Definition bind {A B} (m : M A) (k : A -> M B) : M B :=
  fun st =>
    match m st with
    | (Normal a, st') => k a st'
    | (Thrown e, st') => (Thrown e, st')
    end.

Notation "'let*' x ':=' c 'in' k" := (bind c (fun x => k))
  (at level 10, x name, c at level 100, k at level 200).
Notation "c ';;' k" := (bind c (fun _ => k))
  (at level 100, k at level 200, right associativity, only parsing).

(** A value or an exception computed without touching the state. *)
Definition lift {A} (o : outcome A) : M A := fun st => (o, st).

(** A handler passed by the caller: it may throw and may act on the world;
    it holds no reference to the instance. *)
Definition callback {A} (pHandler : World -> outcome A * World) : M A :=
  fun st =>
    let (o, w) := pHandler (world st) in
    (o, {| this := this st; world := w; calls := calls st |}).

(** Field reads and writes on [this]. *)
Definition this_glob : M jsstring := fun st => (Normal (glob (this st)), st).

Definition this_files : M (list jsstring) :=
  fun st => (Normal (files (this st)), st).

Definition set_this_glob (g : jsstring) : M unit :=
  fun st =>
    (Normal tt,
     {| this := {| glob := g; files := files (this st) |};
        world := world st; calls := calls st |}).

Definition set_this_files (l : list jsstring) : M unit :=
  fun st =>
    (Normal tt,
     {| this := {| glob := glob (this st); files := l |};
        world := world st; calls := calls st |}).

(** Platform calls: the call is logged, the world moves on. *)
Definition query {A} (c : call) (f : World -> outcome A) : M A :=
  fun st =>
    (f (world st),
     {| this := this st; world := world st; calls := calls st ++ [c] |}).

Definition command (c : call) (f : World -> outcome unit * World) : M unit :=
  fun st =>
    let (o, w) := f (world st) in
    (o, {| this := this st; world := w; calls := calls st ++ [c] |}).

Definition glob_sync (pattern : jsstring) : M (list jsstring) :=
  query (GlobSync pattern) (prim_globSync pattern).

Definition fs_lstatSync (p : jsstring) : M Stats :=
  query (LstatSync p) (prim_lstatSync p).

Definition fs_existsSync (p : jsstring) : M bool :=
  query (ExistsSync p) (fun w => Normal (prim_existsSync p w)).

Definition fs_readFileSync (p encoding : jsstring) : M jsstring :=
  query (ReadFileSync p encoding) (prim_readFileSync p encoding).

Definition fs_writeFileSync (p data encoding : jsstring) : M unit :=
  command (WriteFileSync p data encoding) (prim_writeFileSync p data encoding).

Definition fs_appendFileSync (p data encoding : jsstring) : M unit :=
  command (AppendFileSync p data encoding) (prim_appendFileSync p data encoding).

Definition fse_ensureDirSync (p : jsstring) : M unit :=
  command (EnsureDirSync p) (prim_ensureDirSync p).

Definition fse_removeSync (p : jsstring) : M unit :=
  command (RemoveSync p) (prim_removeSync p).

Definition fse_moveSync (src dest : jsstring) : M unit :=
  command (MoveSync src dest) (prim_moveSync src dest).

Definition fse_copySync (src dest : jsstring) : M unit :=
  command (CopySync src dest) (prim_copySync src dest).

(** [array.map(handler)] with a handler that has effects: the entries are
    visited in order, and the first exception ends the visit. *)
Fixpoint array_map {A B} (l : list A) (pHandler : A -> M B) : M (list B) :=
  match l with
  | [] => ret []
  | x :: r =>
      let* y := pHandler x in
      let* ys := array_map r pHandler in
      ret (y :: ys)
  end.

(** The same visit for a handler that pushes onto a local array [acc]. *)
Fixpoint array_map_push {A B} (l : list A) (pHandler : A -> list B -> M (list B))
    (acc : list B) : M (list B) :=
  match l with
  | [] => ret acc
  | x :: r =>
      let* acc' := pHandler x acc in
      array_map_push r pHandler acc'
  end.

(** [array.filter(predicate)] with a predicate that may throw. *)
Fixpoint array_filter {A} (l : list A) (predicate : A -> M bool) : M (list A) :=
  match l with
  | [] => ret []
  | x :: r =>
      let* keep := predicate x in
      let* kept := array_filter r predicate in
      ret (if keep then x :: kept else kept)
  end.

(** *** Construction (lines 121-154) *)

Definition onlyExistingFiles : M unit :=
  let* fs := this_files in
  let* kept := array_filter fs (fun file =>
                 let* stats := fs_lstatSync file in ret (isFile stats)) in
  set_this_files kept.

Definition onlyExistingFolders : M unit :=
  let* fs := this_files in
  let* kept := array_filter fs (fun file =>
                 let* stats := fs_lstatSync file in ret (isDirectory stats)) in
  set_this_files kept.

Definition constructor (pGlob : jsstring) (pNew pOnlyFiles pOnlyFolders : bool)
  : M unit :=
  set_this_glob pGlob ;;
  let* g := this_glob in
  let* matched := (if pNew then ret [] else glob_sync g) in
  set_this_files matched ;;
  (if pOnlyFiles then onlyExistingFiles else ret tt) ;;
  (if pOnlyFolders then onlyExistingFolders else ret tt).

Definition getFiles (pGlob : jsstring) : M unit := constructor pGlob false true false.
Definition getFolders (pGlob : jsstring) : M unit := constructor pGlob false false true.
Definition any (pPath : jsstring) : M unit := constructor pPath false false false.
Definition new (pPath : jsstring) : M unit := constructor pPath true false false.

(** *** [exists] (lines 161-164) *)
Definition exists_ : M bool :=
  let* fs := this_files in
  ret (0 <? array_length fs)%Z.

(** *** [all] (lines 170-173)

    [this.files.map(pHandler)] hands the handler each entry, its index and
    the array [this.files] itself.  Such a handler may throw, act on the
    world and change the array in place; it is given the content of the
    array and returns the content it leaves there (an array of strings
    without holes).  [Array.prototype.map] reads the length once; at every
    index below it that the array still has, the handler is called on the
    element found there at that time; an index the array has lost leaves a
    hole, [None], in the result, whose length is the length read. *)
Definition callback_on_array {A}
    (pHandler : list jsstring -> World -> outcome A * list jsstring * World) : M A :=
  fun st =>
    let '(o, array, w) := pHandler (files (this st)) (world st) in
    (o, {| this := {| glob := glob (this st); files := array |};
           world := w; calls := calls st |}).

Fixpoint array_map_in_place {B} (len k : nat)
    (pHandler : jsstring -> Z -> list jsstring -> World
                -> outcome B * list jsstring * World)
  : M (list (option B)) :=
  match len with
  | O => ret []
  | S len' =>
      let* array := this_files in
      let* mapped :=
        match array !! k with
        | Some kValue =>
            let* mappedValue := callback_on_array (pHandler kValue (Z.of_nat k)) in
            ret (Some mappedValue)
        | None => ret None
        end in
      let* rest := array_map_in_place len' (S k) pHandler in
      ret (mapped :: rest)
  end.

Definition all {B}
    (pHandler : jsstring -> Z -> list jsstring -> World
                -> outcome B * list jsstring * World)
  : M (list (option B)) :=
  let* fs := this_files in
  array_map_in_place (length fs) 0 pHandler.

(** *** [delete] and [remove] (lines 180-206) *)
Definition delete : M Z :=
  let* fs := this_files in
  array_map fs (fun file => fse_removeSync file) ;;
  let* fs' := this_files in
  let totalFiles := array_length fs' in
  set_this_files [] ;;
  ret totalFiles.

Definition remove : M Z := delete.

(** *** [moveTo] (lines 215-239) *)
Definition moveTo (pDestination : jsstring) : M Z :=
  let* fs := this_files in
  let* newFiles :=
    array_map_push fs (fun file newFiles =>
      let destination := targetDirectoryWithTrailingSlash pDestination file in
      fse_moveSync file destination ;;
      ret (newFiles ++ [destination])) [] in
  let* fs' := this_files in
  let totalFiles := array_length fs' in
  set_this_files newFiles ;;
  ret totalFiles.

(** *** [copyTo] (lines 248-266) *)
Definition copyTo (pDestination : jsstring) : M Z :=
  let* fs := this_files in
  array_map fs (fun file =>
    let destination := targetDirectoryWithTrailingSlash pDestination file in
    fse_copySync file destination) ;;
  let* fs' := this_files in
  ret (array_length fs').

(** *** [read] (lines 275-283); [None] is JavaScript's [null] *)
Definition read (pEncoding : jsstring) : M (option jsstring) :=
  let* g := this_glob in
  let* found := fs_existsSync g in
  if found then
    let* g' := this_glob in
    let* content := fs_readFileSync g' pEncoding in
    ret (Some content)
  else ret None.

(** *** [write] (lines 291-298) *)
Definition write (pContent pEncoding : jsstring) : M unit :=
  let* g := this_glob in
  fse_ensureDirSync (path.dirname g) ;;
  let* g' := this_glob in
  fs_writeFileSync g' pContent pEncoding.

(** *** [append] (lines 307-320) *)
Definition append (pContent : jsstring) (pNewLine : bool) (pEncoding : jsstring)
  : M unit :=
  let* g := this_glob in
  fse_ensureDirSync (path.dirname g) ;;
  let* g' := this_glob in
  let* found := fs_existsSync g' in
  let before := if negb found || negb pNewLine then [] else [LINE_FEED] in
  let* g'' := this_glob in
  fs_appendFileSync g'' (before ++ pContent) pEncoding.

(** *** [createFolders] and [ensureFolders] (lines 326-350) *)
Definition createFolders : M unit :=
  let* fs := this_files in
  if (array_length fs =? 0)%Z then
    let* g := this_glob in
    fse_ensureDirSync g
  else
    let* fs' := this_files in
    array_map fs' (fun file => fse_ensureDirSync file) ;;
    ret tt.

Definition ensureFolders : M unit := createFolders.

(** *** [alter] (lines 358-365); the handler sees the content or [null] *)
Definition alter (pHandler : option jsstring -> World -> outcome jsstring * World)
  : M unit :=
  let* content := read default_encoding in
  let* altered := callback (pHandler content) in
  write altered default_encoding.

(** *** [alterJSON] (lines 372-385); [null.toString()] is a [TypeError] *)
Definition alterJSON (pHandler : value -> World -> outcome value * World)
    (pSpaces : option N) : M unit :=
  let* content := read default_encoding in
  let* text := match content with
               | Some s => ret s
               | None => throw (TypeError "Cannot read properties of null")
               end in
  let* parsed := lift (JSON_parse text) in
  let* altered := callback (pHandler parsed) in
  let* text' := lift (JSON_stringify altered pSpaces) in
  write text' default_encoding.

(** *** The fifteen instance methods, as one type

    [assigns] tells the methods whose body assigns [this.files] or hands the
    array to code of the caller. *)
Inductive operation : Type :=
| OpOnlyExistingFiles
| OpOnlyExistingFolders
| OpExists
| OpAll (pHandler : jsstring -> Z -> list jsstring -> World
                    -> outcome value * list jsstring * World)
| OpDelete
| OpRemove
| OpMoveTo (pDestination : jsstring)
| OpCopyTo (pDestination : jsstring)
| OpRead (pEncoding : jsstring)
| OpWrite (pContent pEncoding : jsstring)
| OpAppend (pContent : jsstring) (pNewLine : bool) (pEncoding : jsstring)
| OpCreateFolders
| OpEnsureFolders
| OpAlter (pHandler : option jsstring -> World -> outcome jsstring * World)
| OpAlterJSON (pHandler : value -> World -> outcome value * World)
    (pSpaces : option N).

Inductive returned : Type :=
| Undefined
| Boolean (b : bool)
| Number (n : Z)
| Content (c : option jsstring)
| Results (r : list (option value)).

Definition invoke (op : operation) : M returned :=
  match op with
  | OpOnlyExistingFiles => onlyExistingFiles ;; ret Undefined
  | OpOnlyExistingFolders => onlyExistingFolders ;; ret Undefined
  | OpExists => let* b := exists_ in ret (Boolean b)
  | OpAll h => let* r := all h in ret (Results r)
  | OpDelete => let* n := delete in ret (Number n)
  | OpRemove => let* n := remove in ret (Number n)
  | OpMoveTo d => let* n := moveTo d in ret (Number n)
  | OpCopyTo d => let* n := copyTo d in ret (Number n)
  | OpRead e => let* c := read e in ret (Content c)
  | OpWrite c e => write c e ;; ret Undefined
  | OpAppend c n e => append c n e ;; ret Undefined
  | OpCreateFolders => createFolders ;; ret Undefined
  | OpEnsureFolders => ensureFolders ;; ret Undefined
  | OpAlter h => alter h ;; ret Undefined
  | OpAlterJSON h sp => alterJSON h sp ;; ret Undefined
  end.

Definition assigns (op : operation) : bool :=
  match op with
  | OpOnlyExistingFiles | OpOnlyExistingFolders | OpAll _
  | OpDelete | OpRemove | OpMoveTo _ => true
  | _ => false
  end.

End Methods.

Notation "'let*' x ':=' c 'in' k" := (bind c (fun x => k))
  (at level 10, x name, c at level 100, k at level 200).
Notation "c ';;' k" := (bind c (fun _ => k))
  (at level 100, k at level 200, right associativity, only parsing).

(** ** UTF-8, the default encoding of [read], [write] and [append]

    [fs.writeFileSync(p, data, {encoding: 'utf-8'})] stores the UTF-8 bytes of
    the string and [fs.readFileSync(p, {encoding: 'utf-8'})] decodes the bytes
    it finds.  A surrogate without its partner has no UTF-8 form: the encoder
    writes U+FFFD in its place.  The decoder follows the WHATWG algorithm: an
    ill-formed prefix decodes to one U+FFFD and the scan resumes at the byte
    that broke it. *)

Definition isHighSurrogate (c : N) : bool := (0xD800 <=? c) && (c <=? 0xDBFF).
Definition isLowSurrogate (c : N) : bool := (0xDC00 <=? c) && (c <=? 0xDFFF).
(** U+FFFD in UTF-8. *)
Definition REPLACEMENT : list N := [0xEF; 0xBF; 0xBD].

Fixpoint utf8_encode (s : jsstring) : list N :=
  match s with
  | [] => []
  | c :: r =>
      if c <? 0x80 then c :: utf8_encode r
      else if c <? 0x800 then
        (0xC0 + c / 64) :: (0x80 + c mod 64) :: utf8_encode r
      else if isHighSurrogate c then
        match r with
        | d :: r' =>
            if isLowSurrogate d then
              let cp := 0x10000 + (c - 0xD800) * 0x400 + (d - 0xDC00) in
              (0xF0 + cp / 262144) :: (0x80 + (cp / 4096) mod 64)
                :: (0x80 + (cp / 64) mod 64) :: (0x80 + cp mod 64)
                :: utf8_encode r'
            else REPLACEMENT ++ utf8_encode r
        | [] => REPLACEMENT
        end
      else if isLowSurrogate c then REPLACEMENT ++ utf8_encode r
      else
        (0xE0 + c / 4096) :: (0x80 + (c / 64) mod 64) :: (0x80 + c mod 64)
          :: utf8_encode r
  end.

Definition inRange (lo hi b : N) : bool := (lo <=? b) && (b <=? hi).
Definition isContinuation (b : N) : bool := inRange 0x80 0xBF b.
Definition U_FFFD : N := 0xFFFD.

Fixpoint utf8_decode (bs : list N) : jsstring :=
  match bs with
  | [] => []
  | b0 :: r =>
      if b0 <? 0x80 then b0 :: utf8_decode r
      else if inRange 0xC2 0xDF b0 then
        match r with
        | [] => [U_FFFD]
        | b1 :: r1 =>
            if isContinuation b1 then
              ((b0 - 0xC0) * 64 + (b1 - 0x80)) :: utf8_decode r1
            else U_FFFD :: utf8_decode r
        end
      else if inRange 0xE0 0xEF b0 then
        match r with
        | [] => [U_FFFD]
        | b1 :: r1 =>
            if inRange (if b0 =? 0xE0 then 0xA0 else 0x80)
                       (if b0 =? 0xED then 0x9F else 0xBF) b1 then
              match r1 with
              | [] => [U_FFFD]
              | b2 :: r2 =>
                  if isContinuation b2 then
                    ((b0 - 0xE0) * 4096 + (b1 - 0x80) * 64 + (b2 - 0x80))
                      :: utf8_decode r2
                  else U_FFFD :: utf8_decode r1
              end
            else U_FFFD :: utf8_decode r
        end
      else if inRange 0xF0 0xF4 b0 then
        match r with
        | [] => [U_FFFD]
        | b1 :: r1 =>
            if inRange (if b0 =? 0xF0 then 0x90 else 0x80)
                       (if b0 =? 0xF4 then 0x8F else 0xBF) b1 then
              match r1 with
              | [] => [U_FFFD]
              | b2 :: r2 =>
                  if isContinuation b2 then
                    match r2 with
                    | [] => [U_FFFD]
                    | b3 :: r3 =>
                        if isContinuation b3 then
                          let cp := (b0 - 0xF0) * 262144 + (b1 - 0x80) * 4096
                                    + (b2 - 0x80) * 64 + (b3 - 0x80) in
                          (0xD800 + (cp - 0x10000) / 0x400)
                            :: (0xDC00 + (cp - 0x10000) mod 0x400)
                            :: utf8_decode r3
                        else U_FFFD :: utf8_decode r2
                    end
                  else U_FFFD :: utf8_decode r1
              end
            else U_FFFD :: utf8_decode r
        end
      else U_FFFD :: utf8_decode r
  end.

(** [s.isWellFormed()]: code units only, and every surrogate in a pair. *)
Fixpoint isWellFormed (s : jsstring) : bool :=
  match s with
  | [] => true
  | c :: r =>
      if isHighSurrogate c then
        match r with
        | d :: r' => isLowSurrogate d && isWellFormed r'
        | [] => false
        end
      else negb (isLowSurrogate c) && (c <? 0x10000) && isWellFormed r
  end.

(** The code units of a JavaScript string are 16-bit. *)
Definition isString (s : jsstring) : bool := forallb (fun c => c <? 0x10000) s.

(** [s.toWellFormed()]: the string with every surrogate that has no partner
    replaced by U+FFFD. *)
Fixpoint toWellFormed (s : jsstring) : jsstring :=
  match s with
  | [] => []
  | c :: r =>
      if isHighSurrogate c then
        match r with
        | d :: r' =>
            if isLowSurrogate d then c :: d :: toWellFormed r'
            else U_FFFD :: toWellFormed r
        | [] => [U_FFFD]
        end
      else if isLowSurrogate c then U_FFFD :: toWellFormed r
      else c :: toWellFormed r
  end.


(** ** A reference world

    A filesystem small enough to run: a tree of directories and files keyed
    by the resolved path (the list of its segments from the root, which is
    also the working directory), with no links, owners or permissions.  It
    gives the [Platform] interface one inhabitant to evaluate the methods on;
    the theorems about the methods hold for every platform. *)

Inductive node : Type :=
| File (content : list N)
| Directory.

Module Ref.

Abbreviation World := (gmap (list jsstring) node).

Definition resolve (p : jsstring) : list jsstring :=
  path.normalizeSegments false [] (path.segments p).

Definition entry (w : World) (k : list jsstring) : option node :=
  match k with
  | [] => Some Directory
  | _ => w !! k
  end.

Definition parent (k : list jsstring) : list jsstring := removelast k.

Definition isUtf8 (encoding : jsstring) : bool :=
  path.jseq encoding (js "utf-8") || path.jseq encoding (js "utf8").

Definition ENOENT {A} : outcome A := Thrown (SystemError "ENOENT").
Definition EISDIR {A} : outcome A := Thrown (SystemError "EISDIR").
Definition ENOTDIR {A} : outcome A := Thrown (SystemError "ENOTDIR").
Definition EEXIST {A} : outcome A := Thrown (SystemError "EEXIST").
Definition EINVAL {A} : outcome A := Thrown (SystemError "EINVAL").
Definition badEncoding {A} : outcome A := Thrown (TypeError "ERR_INVALID_ARG_VALUE").

Definition existsSync (p : jsstring) (w : World) : bool :=
  match p with
  | [] => false
  | _ => match entry w (resolve p) with Some _ => true | None => false end
  end.

Definition lstatSync (p : jsstring) (w : World) : outcome Stats :=
  match p with
  | [] => ENOENT
  | _ =>
      match entry w (resolve p) with
      | Some (File _) => Normal {| isFile := true; isDirectory := false |}
      | Some Directory => Normal {| isFile := false; isDirectory := true |}
      | None => ENOENT
      end
  end.

(** Patterns without wildcard characters only: such a pattern matches
    itself when it exists. *)
Definition hasMagic (pattern : jsstring) : bool :=
  existsb (fun c => existsb (N.eqb c) (js "*?[]{}()!+@")) pattern.

Definition globSync (pattern : jsstring) (w : World) : outcome (list jsstring) :=
  if hasMagic pattern then Thrown (SystemError "wildcards are outside the reference world")
  else Normal (if existsSync pattern w then [pattern] else []).

Definition readFileSync (p encoding : jsstring) (w : World) : outcome jsstring :=
  if negb (isUtf8 encoding) then badEncoding
  else match p with
       | [] => ENOENT
       | _ =>
           match entry w (resolve p) with
           | Some (File bytes) => Normal (utf8_decode bytes)
           | Some Directory => EISDIR
           | None => ENOENT
           end
       end.

(** [writeFileSync] (flag [w]) and [appendFileSync] (flag [a]). *)
Definition store (appending : bool) (p data encoding : jsstring) (w : World)
  : outcome unit * World :=
  if negb (isUtf8 encoding) then (badEncoding, w)
  else match p with
       | [] => (ENOENT, w)
       | _ =>
           let k := resolve p in
           match entry w k with
           | Some Directory => (EISDIR, w)
           | Some (File old) =>
               if path.endsWithSeparator p then (ENOTDIR, w)
               else (Normal tt,
                     <[k := File ((if appending then old else []) ++ utf8_encode data)]> w)
           | None =>
               match entry w (parent k) with
               | Some Directory =>
                   if path.endsWithSeparator p then (EISDIR, w)
                   else (Normal tt, <[k := File (utf8_encode data)]> w)
               | Some (File _) => (ENOTDIR, w)
               | None => (ENOENT, w)
               end
           end
       end.

Definition writeFileSync := store false.
Definition appendFileSync := store true.

(** [mkdir -p]: the directories missing along [rest] are created below
    [prefix]; a file in the way stops it. *)
Fixpoint mkdirs (prefix rest : list jsstring) (w : World) : outcome unit * World :=
  match rest with
  | [] => (Normal tt, w)
  | seg :: r =>
      let k := prefix ++ [seg] in
      match w !! k with
      | Some (File _) => (ENOTDIR, w)
      | Some Directory => mkdirs k r w
      | None => mkdirs k r (<[k := Directory]> w)
      end
  end.

Definition ensureDirSync (p : jsstring) (w : World) : outcome unit * World :=
  match p with
  | [] => (ENOENT, w)
  | _ => mkdirs [] (resolve p) w
  end.

Definition under (k : list jsstring) (kv : list jsstring * node) : bool :=
  bool_decide (k `prefix_of` kv.1).

(** The entries below [k], and the world without them. *)
Definition subtree (k : list jsstring) (w : World) : list (list jsstring * node) :=
  List.filter (under k) (map_to_list w).

Definition without (k : list jsstring) (w : World) : World :=
  list_to_map (List.filter (fun kv => negb (under k kv)) (map_to_list w)).

(** The entries below [from], re-rooted at [to]. *)
Definition rerooted (from to : list jsstring) (w : World) : World :=
  list_to_map (map (fun kv : list jsstring * node =>
                      (to ++ drop (length from) kv.1, kv.2)) (subtree from w)).

Definition removeSync (p : jsstring) (w : World) : outcome unit * World :=
  match p with
  | [] => (Normal tt, w)
  | _ => (Normal tt, without (resolve p) w)
  end.

Definition sameKind (a b : node) : bool :=
  match a, b with
  | File _, File _ | Directory, Directory => true
  | _, _ => false
  end.

(** [fse.moveSync(src, dest)], which does not overwrite, and
    [fse.copySync(src, dest)], which does. *)
Definition transfer (moving : bool) (src dest : jsstring) (w : World)
  : outcome unit * World :=
  match src, dest with
  | [], _ | _, [] => (ENOENT, w)
  | _, _ =>
      let ks := resolve src in
      let kd := resolve dest in
      match entry w ks with
      | None => (ENOENT, w)
      | Some from =>
          if bool_decide (ks `prefix_of` kd) then (EINVAL, w)
          else
            let clash :=
              match entry w kd with
              | Some to => moving || negb (sameKind from to)
              | None => false
              end in
            if clash then (EEXIST, w)
            else
              match mkdirs [] (parent kd) w with
              | (Thrown e, w') => (Thrown e, w')
              | (Normal _, w') =>
                  (Normal tt,
                   rerooted ks kd w' ∪ (if moving then without ks w' else w'))
              end
      end
  end.

Definition moveSync := transfer true.
Definition copySync := transfer false.

#[global] Instance platform : Platform World := {
  prim_globSync := globSync;
  prim_lstatSync := lstatSync;
  prim_existsSync := existsSync;
  prim_readFileSync := readFileSync;
  prim_writeFileSync := writeFileSync;
  prim_appendFileSync := appendFileSync;
  prim_ensureDirSync := ensureDirSync;
  prim_removeSync := removeSync;
  prim_moveSync := moveSync;
  prim_copySync := copySync
}.

(** A fresh process: nothing on disk but the root, no instance yet. *)
Definition boot : state World :=
  {| this := {| glob := []; files := [] |}; world := ∅; calls := [] |}.

End Ref.

(** What the class relies on from [fs] for a file it has just written: the
    path exists and reads back as the decoded bytes of what was stored. *)
Definition readsBackWhatItWrote {World} (platform : Platform World) : Prop :=
  forall (p data : jsstring) (w w' : World),
    prim_writeFileSync p data default_encoding w = (Normal tt, w') ->
    prim_existsSync p w' = true
    /\ prim_readFileSync p default_encoding w'
       = Normal (utf8_decode (utf8_encode data)).

(** ** Scenarios on the reference world *)

(** The disk after [Files.new(p).write(c)] for each [(p, c)], from nothing. *)
Fixpoint populate (entries : list (jsstring * jsstring)) : M Ref.World unit :=
  match entries with
  | [] => ret tt
  | (p, c) :: r => new p ;; write c default_encoding ;; populate r
  end.

Definition disk (entries : list (jsstring * jsstring)) : Ref.World :=
  world (populate entries Ref.boot).2.

(** An instance as its constructor leaves it, with nothing logged yet. *)
Definition instance (pattern : jsstring) (matched : list jsstring) (w : Ref.World)
  : state Ref.World :=
  {| this := {| glob := pattern; files := matched |}; world := w; calls := [] |}.

(** Three source files matched by a wildcard pattern. *)
Definition threeSources : state Ref.World :=
  instance (js "src/*.js") [js "src/a.js"; js "src/b.js"; js "src/c.js"]
    (disk [(js "src/a.js", js "A"); (js "src/b.js", js "B"); (js "src/c.js", js "C")]).

(** [notes/log.txt], holding [a], and the same target on an empty disk. *)
Definition logHoldingA : state Ref.World :=
  instance (js "notes/log.txt") [] (disk [(js "notes/log.txt", js "a")]).

Definition logMissing : state Ref.World :=
  instance (js "notes/log.txt") [] ∅.

(** A folder and a file matched by [dist/*]. *)
Definition folderAndFile : state Ref.World :=
  instance (js "dist/*") [js "dist/css"; js "dist/app.js"]
    (disk [(js "dist/css/site.css", js "c"); (js "dist/app.js", js "x")]).

(** Two folders matched by [build/*] and removed from the disk since. *)
Definition removedFolders : state Ref.World :=
  instance (js "build/*") [js "build/css"; js "build/js"]
    (Ref.removeSync (js "build")
       (disk [(js "build/css/site.css", js "c"); (js "build/js/app.js", js "j")])).2.

(** The folder [dist], matched by its own name. *)
Definition distFolder : state Ref.World :=
  instance (js "dist") [js "dist"] (disk [(js "dist/app.js", js "x")]).

(** ** JSON documents that are one literal

    An inhabitant of [Json] to run [alterJSON] on: the documents [true],
    [false] and [null], with white space around them; every other text,
    the other documents of JSON included, is outside it and is refused. *)

Inductive literal : Type := JTrue | JFalse | JNull.

Definition isJsonSpace (c : N) : bool :=
  (c =? 0x20) || (c =? 0x09) || (c =? 0x0A) || (c =? 0x0D).

Definition jsonTrim (text : jsstring) : jsstring :=
  rev (path.dropWhile isJsonSpace (rev (path.dropWhile isJsonSpace text))).

Definition literalText (v : literal) : jsstring :=
  match v with
  | JTrue => js "true"
  | JFalse => js "false"
  | JNull => js "null"
  end.

Definition parseLiteral (text : jsstring) : outcome literal :=
  let t := jsonTrim text in
  if path.jseq t (js "true") then Normal JTrue
  else if path.jseq t (js "false") then Normal JFalse
  else if path.jseq t (js "null") then Normal JNull
  else Thrown (SyntaxError "Unexpected token").

#[global] Instance literalJson : Json literal := {
  JSON_parse := parseLiteral;
  JSON_stringify := fun v _ => Normal (literalText v)
}.

(** What [path.join] leaves untouched as a last segment: a segment that is
    not empty and is neither [.] nor [..]. *)
Definition plainSegment (b : jsstring) : bool :=
  negb (path.jseq b []) && negb (path.jseq b [path.CHAR_DOT])
  && negb (path.jseq b path.dotdot)
  && forallb path.notSeparator b.

(** What [lstatSync] tells of a path in a world, as [filter] sees it. *)
Definition statIs {World} {platform : Platform World} (kind : Stats -> bool)
    (w : World) (p : jsstring) : bool :=
  match prim_lstatSync p w with
  | Normal stats => kind stats
  | Thrown _ => false
  end.

(** The world a sequence of platform commands leaves when each runs in the
    world the one before it left. *)
Definition worldAfter {World A} (f : A -> World -> outcome unit * World)
    (l : list A) (w : World) : World :=
  fold_left (fun w x => (f x w).2) l w.

(** A computation that leaves the instance as it found it, whatever its
    outcome. *)
Definition preserves_this {World A} (m : M World A) : Prop :=
  forall st, this (m st).2 = this st.

(** * Properties *)

(** ** Strings and paths *)

(** The transcription agrees with Node on the documented examples. *)
Example node_basename :
  path.basename (js "/foo/bar/baz/asdf/quux.html") = js "quux.html"
  /\ path.basename (js "a/b/") = js "b"
  /\ path.basename (js "/") = js "".
Proof. repeat split; vm_compute; reflexivity. Qed.

Example node_dirname :
  path.dirname (js "/foo/bar/baz/asdf/quux") = js "/foo/bar/baz/asdf"
  /\ path.dirname (js "a//b") = js "a/"
  /\ path.dirname (js "file.txt") = js "."
  /\ path.dirname (js "/file.txt") = js "/"
  /\ path.dirname (js "") = js ".".
Proof. repeat split; vm_compute; reflexivity. Qed.

Example node_normalize :
  path.normalize (js "/foo/bar//baz/asdf/quux/..") = js "/foo/bar/baz/asdf"
  /\ path.normalize (js "../a/./b/../c/") = js "../a/c/"
  /\ path.normalize (js "a/..") = js "."
  /\ path.normalize (js "/..") = js "/"
  /\ path.normalize (js "./") = js "./".
Proof. repeat split; vm_compute; reflexivity. Qed.

Example node_join :
  path.join (js "/foo") (js "bar/../baz") = js "/foo/baz"
  /\ path.join (js "dst/") (js "file.txt") = js "dst/file.txt"
  /\ path.join (js "") (js "") = js ".".
Proof. repeat split; vm_compute; reflexivity. Qed.

Lemma lastIndexOf_from_spec (s : jsstring) (c : N) :
  forall i found : Z, (found < i)%Z ->
    (lastIndexOf_from i found s c < i + jslength s)%Z
    /\ (lastIndexOf_from i found s c = (i + jslength s - 1)%Z
        <-> (s = [] /\ found = (i - 1)%Z) \/ last s = Some c).
Proof.
  unfold jslength. induction s as [|x r IH]; intros i found Hlt.
  - cbn. split; [lia|]. split.
    + intros ->. left. split; [reflexivity | lia].
    + intros [[_ ->] | H]; [lia | discriminate].
  - cbn [lastIndexOf_from length].
    set (found' := if x =? c then i else found).
    assert (Hf : (found' < i + 1)%Z) by (subst found'; destruct (x =? c); lia).
    destruct (IH (i + 1)%Z found' Hf) as [Hb Hiff].
    split; [lia|].
    replace (i + Z.of_nat (S (length r)) - 1)%Z
      with (i + 1 + Z.of_nat (length r) - 1)%Z by lia.
    rewrite Hiff. destruct r as [|y r'].
    + cbn. subst found'. destruct (N.eqb_spec x c) as [->|Hne].
      * split; [intros _; right; reflexivity | intros _; left; split; [reflexivity | lia]].
      * split.
        -- intros [[_ H] | H]; [lia | discriminate].
        -- intros [[H _] | H]; [discriminate | congruence].
    + cbn [last]. split.
      * intros [[H _] | H]; [discriminate | right; exact H].
      * intros [[H _] | H]; [discriminate | right; exact H].
Qed.

Lemma lastIndexOf_trailing (s : jsstring) (c : N) :
  lastIndexOf s c = (jslength s - 1)%Z <-> s = [] \/ last s = Some c.
Proof.
  unfold lastIndexOf.
  destruct (lastIndexOf_from_spec s c 0 (-1) ltac:(lia)) as [_ H].
  replace (jslength s - 1)%Z with (0 + jslength s - 1)%Z by lia.
  rewrite H. split.
  - intros [[-> _] | Hl]; [left; reflexivity | right; exact Hl].
  - intros [-> | Hl]; [left; split; [reflexivity | lia] | right; exact Hl].
Qed.

Lemma endsWithSeparator_last (s : jsstring) :
  path.endsWithSeparator s = true <-> last s = Some path.CHAR_FORWARD_SLASH.
Proof.
  unfold path.endsWithSeparator, path.isPathSeparator.
  destruct (last s) as [c|]; [|split; discriminate].
  rewrite N.eqb_eq. split; congruence.
Qed.

(** The test of line 52 holds for the destinations that end with a separator
    and for the empty destination, and for no other. *)
Lemma trailing_slash_test (d : jsstring) :
  (lastIndexOf d path.CHAR_FORWARD_SLASH =? jslength d - 1)%Z
  = path.endsWithSeparator d || bool_decide (d = []).
Proof.
  apply eq_true_iff_eq.
  rewrite Z.eqb_eq, lastIndexOf_trailing, orb_true_iff, bool_decide_eq_true.
  rewrite endsWithSeparator_last. tauto.
Qed.

Lemma targetDirectoryWithTrailingSlash_unfold (d f : jsstring) :
  targetDirectoryWithTrailingSlash d f
  = if path.endsWithSeparator d || bool_decide (d = [])
    then path.join d (path.basename f) else d.
Proof.
  unfold targetDirectoryWithTrailingSlash. rewrite trailing_slash_test. reflexivity.
Qed.

Lemma takeWhile_notSeparator (s : jsstring) :
  Forall (fun c => path.isPathSeparator c = false) (path.takeWhile path.notSeparator s).
Proof.
  induction s as [|c r IH]; cbn; [constructor|].
  unfold path.notSeparator at 1.
  destruct (path.isPathSeparator c) eqn:E; cbn; [constructor|].
  constructor; assumption.
Qed.

Lemma basename_no_separator (p : jsstring) :
  Forall (fun c => path.isPathSeparator c = false) (path.basename p).
Proof.
  unfold path.basename. apply Forall_rev, takeWhile_notSeparator.
Qed.

Lemma segments_no_separator (s : jsstring) :
  Forall (fun c => path.isPathSeparator c = false) s -> path.segments s = [s].
Proof.
  induction 1 as [|c r Hc _ IH]; [reflexivity|].
  cbn. rewrite Hc, IH. reflexivity.
Qed.

(** A single segment is its own normal form. *)
Lemma normalize_segment (b : jsstring) :
  b <> [] -> Forall (fun c => path.isPathSeparator c = false) b ->
  path.normalize b = b.
Proof.
  intros Hne Hb.
  assert (Hstart : path.startsWithSeparator b = false).
  { destruct Hb; [reflexivity | assumption]. }
  assert (Hend : path.endsWithSeparator b = false).
  { unfold path.endsWithSeparator. destruct (last b) as [c|] eqn:E; [|reflexivity].
    apply last_Some_elem_of in E.
    rewrite Forall_forall in Hb. apply Hb. exact E. }
  unfold path.normalize, path.normalizeString.
  rewrite Hstart, Hend, (segments_no_separator b Hb).
  destruct b as [|c r]; [contradiction|].
  cbn [path.normalizeSegments negb].
  unfold path.jseq.
  rewrite (bool_decide_eq_false_2 (c :: r = [])) by discriminate.
  cbn [orb].
  destruct (decide (c :: r = [path.CHAR_DOT])) as [E1|E1].
  { rewrite (bool_decide_eq_true_2 _ E1). rewrite E1. reflexivity. }
  rewrite (bool_decide_eq_false_2 _ E1).
  destruct (decide (c :: r = path.dotdot)) as [E2|E2].
  { rewrite (bool_decide_eq_true_2 _ E2). rewrite E2. reflexivity. }
  rewrite (bool_decide_eq_false_2 _ E2).
  cbn. rewrite app_nil_r. reflexivity.
Qed.

(** [path.join] of the empty string and a base name. *)
Lemma join_empty_basename (f : jsstring) :
  path.join [] (path.basename f)
  = match path.basename f with [] => [path.CHAR_DOT] | b => b end.
Proof.
  pose proof (basename_no_separator f) as Hb.
  destruct (path.basename f) as [|c r] eqn:E; [reflexivity|].
  cbn [path.join]. apply normalize_segment; [discriminate | exact Hb].
Qed.

(** ** The monad and the visits of the working set *)

Section MethodFacts.

Context {World : Type} {platform : Platform World}.

Lemma command_run (c : call) (f : World -> outcome unit * World) st :
  command c f st
  = ((f (world st)).1,
     {| this := this st; world := (f (world st)).2; calls := calls st ++ [c] |}).
Proof. unfold command. destruct (f (world st)); reflexivity. Qed.

Lemma bind_ret_run {A B} (m : M World A) (g : A -> B) st :
  bind m (fun a => ret (g a)) st
  = (match (m st).1 with Normal a => Normal (g a) | Thrown e => Thrown e end,
     (m st).2).
Proof. unfold bind, ret. destruct (m st) as [[a|e] s]; reflexivity. Qed.

(** A visit whose handler is one platform command per entry: the commands
    are issued in the order of the entries and stop after the first that
    throws; [this] is not touched. *)
Lemma array_map_command {A} (c : A -> call)
    (f : A -> World -> outcome unit * World) (l : list A) :
  forall st o st',
    array_map l (fun x => command (c x) (f x)) st = (o, st') ->
    exists k : nat, (k <= length l)%nat
      /\ this st' = this st
      /\ calls st' = calls st ++ map c (take k l)
      /\ (isNormal o = true -> k = length l).
Proof.
  induction l as [|x r IH]; intros st o st' H.
  - exists 0%nat. cbn in H. injection H as <- <-.
    cbn. rewrite app_nil_r. auto.
  - cbn [array_map] in H. unfold bind at 1 in H. rewrite command_run in H.
    destruct ((f x (world st)).1) as [[]|e] eqn:Ho.
    + unfold bind in H.
      match type of H with context [array_map r ?h ?s] =>
        destruct (array_map r h s) as [o1 st1] eqn:Hr
      end.
      apply IH in Hr as (k & Hk & Hthis & Hcalls & Hnorm). cbn in *.
      exists (S k). destruct o1 as [ys|e]; injection H as <- <-.
      * rewrite Hcalls, <- app_assoc. repeat split; auto with lia.
      * rewrite Hcalls, <- app_assoc. repeat split; auto with lia; discriminate.
    + injection H as <- <-.
      exists 1%nat. cbn. rewrite take_0. repeat split; auto with lia; discriminate.
Qed.

(** The visit does not look at [this]: on another instance in the same world
    it has the same outcome and leaves the same world and the same log. *)
Lemma array_map_command_frame {A} (c : A -> call)
    (f : A -> World -> outcome unit * World) (l : list A) (t : Files) :
  forall st o st',
    array_map l (fun x => command (c x) (f x)) st = (o, st') ->
    array_map l (fun x => command (c x) (f x))
      {| this := t; world := world st; calls := calls st |}
    = (o, {| this := t; world := world st'; calls := calls st' |}).
Proof.
  induction l as [|x r IH]; intros st o st' H.
  - cbn in *. injection H as <- <-. reflexivity.
  - cbn [array_map] in *. unfold bind at 1 in H. unfold bind at 1.
    rewrite command_run in *. cbn [world calls this].
    destruct ((f x (world st)).1) as [[]|e].
    + unfold bind in *.
      match type of H with context [array_map r ?h ?s] =>
        destruct (array_map r h s) as [o1 st1] eqn:Hr
      end.
      apply IH in Hr. cbn [world calls] in Hr. rewrite Hr.
      destruct o1; injection H as <- <-; reflexivity.
    + injection H as <- <-. reflexivity.
Qed.

(** When no command of the visit throws, the visit completes. *)
Lemma array_map_command_completes {A} (c : A -> call)
    (f : A -> World -> outcome unit * World) (l : list A) :
  (forall x w, In x l -> (f x w).1 = Normal tt) ->
  forall st,
    isNormal (array_map l (fun x => command (c x) (f x)) st).1 = true.
Proof.
  induction l as [|x r IH]; intros Hok st; [reflexivity|].
  cbn [array_map]. unfold bind at 1. rewrite command_run.
  rewrite (Hok x (world st)) by (left; reflexivity).
  unfold bind.
  match goal with |- context [array_map r ?h ?s] =>
    pose proof (IH (fun y w Hy => Hok y w (or_intror Hy)) s) as Hn;
    destruct (array_map r h s) as [[ys|e] st2]
  end; [reflexivity | discriminate].
Qed.

(** The same visit, as an equation: when every command returns in the world
    the commands before it left, the visit returns in the world the last one
    left, every command issued. *)
Lemma array_map_command_returns {A} (c : A -> call)
    (f : A -> World -> outcome unit * World) (l : list A) :
  forall st,
    (forall (i : nat) x, l !! i = Some x ->
       (f x (worldAfter f (take i l) (world st))).1 = Normal tt) ->
    array_map l (fun x => command (c x) (f x)) st
    = (Normal (map (fun _ => tt) l),
       {| this := this st; world := worldAfter f l (world st);
          calls := calls st ++ map c l |}).
Proof.
  induction l as [|x r IH]; intros st Hok.
  - cbn. rewrite app_nil_r. destruct st; reflexivity.
  - cbn [array_map]. unfold bind at 1. rewrite command_run.
    pose proof (Hok 0%nat x eq_refl) as H0. cbn in H0. rewrite H0. unfold bind.
    rewrite IH.
    + cbn. rewrite <- app_assoc. reflexivity.
    + intros i y Hi. exact (Hok (S i) y Hi).
Qed.

(** And when the command of index [i] is the first to throw, the visit ends
    there with its exception, in the world that command left. *)
Lemma array_map_command_throws {A} (c : A -> call)
    (f : A -> World -> outcome unit * World) (l : list A) :
  forall st (i : nat) x e,
    l !! i = Some x ->
    (forall (j : nat) y, (j < i)%nat -> l !! j = Some y ->
       (f y (worldAfter f (take j l) (world st))).1 = Normal tt) ->
    (f x (worldAfter f (take i l) (world st))).1 = Thrown e ->
    array_map l (fun x => command (c x) (f x)) st
    = (Thrown e,
       {| this := this st; world := worldAfter f (take (S i) l) (world st);
          calls := calls st ++ map c (take (S i) l) |}).
Proof.
  induction l as [|a r IH]; intros st i x e Hi Hbefore Hthrow; [discriminate|].
  cbn [array_map]. unfold bind at 1. rewrite command_run.
  destruct i as [|i].
  - injection Hi as ->. cbn in Hthrow. rewrite Hthrow. cbn. rewrite take_0.
    reflexivity.
  - pose proof (Hbefore 0%nat a ltac:(lia) eq_refl) as H0. cbn in H0. rewrite H0.
    unfold bind.
    rewrite (IH _ i x e Hi).
    + cbn. rewrite <- app_assoc. reflexivity.
    + intros j y Hj Hy. exact (Hbefore (S j) y ltac:(lia) Hy).
    + exact Hthrow.
Qed.

(** The same visit when the handler also pushes [g x] onto a local array. *)
Lemma array_map_push_command {A} (c : A -> call)
    (f : A -> World -> outcome unit * World) (g : A -> jsstring) (l : list A) :
  let handler := fun x acc =>
    bind (command (c x) (f x)) (fun _ => ret (World := World) (acc ++ [g x])) in
  forall acc st o st',
    array_map_push l handler acc st = (o, st') ->
    exists k : nat, (k <= length l)%nat
      /\ this st' = this st
      /\ calls st' = calls st ++ map c (take k l)
      /\ (forall out, o = Normal out -> k = length l /\ out = acc ++ map g l).
Proof.
  intros handler. induction l as [|x r IH]; intros acc st o st' H.
  - exists 0%nat. cbn in H. injection H as <- <-.
    cbn. rewrite !app_nil_r. repeat split; auto. congruence.
  - cbn [array_map_push] in H. unfold bind at 1 in H. unfold handler at 1 in H.
    unfold bind at 1 in H. rewrite command_run in H.
    destruct ((f x (world st)).1) as [[]|e] eqn:Ho.
    + cbn [ret] in H.
      apply IH in H as (k & Hk & Hthis & Hcalls & Hnorm). cbn in *.
      exists (S k). rewrite Hcalls, <- !app_assoc.
      repeat split; auto with lia.
      * apply Hnorm in H. lia.
      * apply Hnorm in H. destruct H as [_ ->]. rewrite <- app_assoc. reflexivity.
    + injection H as <- <-.
      exists 1%nat. cbn. rewrite take_0. repeat split; auto with lia; discriminate.
Qed.


(** *** The batch operations *)

Lemma delete_spec st o st' :
  delete st = (o, st') ->
  exists k : nat, (k <= length (files (this st)))%nat
    /\ calls st' = calls st ++ map RemoveSync (take k (files (this st)))
    /\ match o with
       | Normal n =>
           n = array_length (files (this st))
           /\ this st' = {| glob := glob (this st); files := [] |}
           /\ k = length (files (this st))
       | Thrown _ => this st' = this st
       end.
Proof.
  unfold delete, bind at 1, this_files. cbn [fst snd]. unfold bind at 1.
  unfold fse_removeSync.
  destruct (array_map _ _ st) as [o1 st1] eqn:Hr.
  apply array_map_command in Hr as (k & Hk & Hthis & Hcalls & Hnorm).
  intros H. exists k. destruct o1 as [ys|e].
  - cbn in H. injection H as <- <-. cbn.
    rewrite Hthis, Hcalls, (Hnorm eq_refl), firstn_all. auto.
  - injection H as <- <-. auto.
Qed.

Lemma moveTo_spec d st o st' :
  moveTo d st = (o, st') ->
  exists k : nat, (k <= length (files (this st)))%nat
    /\ calls st'
       = calls st
         ++ map (fun f => MoveSync f (targetDirectoryWithTrailingSlash d f))
                (take k (files (this st)))
    /\ match o with
       | Normal n =>
           n = array_length (files (this st))
           /\ this st'
              = {| glob := glob (this st);
                   files := map (targetDirectoryWithTrailingSlash d)
                                (files (this st)) |}
           /\ k = length (files (this st))
       | Thrown _ => this st' = this st
       end.
Proof.
  unfold moveTo, bind at 1, this_files. cbn [fst snd]. unfold bind at 1.
  unfold fse_moveSync.
  destruct (array_map_push _ _ _ st) as [o1 st1] eqn:Hr.
  apply (array_map_push_command
           (fun f => MoveSync f (targetDirectoryWithTrailingSlash d f))
           (fun f => prim_moveSync f (targetDirectoryWithTrailingSlash d f))
           (targetDirectoryWithTrailingSlash d))
    in Hr as (k & Hk & Hthis & Hcalls & Hnorm).
  intros H. exists k. destruct o1 as [out|e].
  - destruct (Hnorm out eq_refl) as [-> ->].
    cbn in H. injection H as <- <-. cbn.
    rewrite Hthis, Hcalls, firstn_all. auto.
  - injection H as <- <-. auto.
Qed.

Lemma copyTo_spec d st o st' :
  copyTo d st = (o, st') ->
  exists k : nat, (k <= length (files (this st)))%nat
    /\ this st' = this st
    /\ calls st'
       = calls st
         ++ map (fun f => CopySync f (targetDirectoryWithTrailingSlash d f))
                (take k (files (this st)))
    /\ forall n, o = Normal n ->
         n = array_length (files (this st)) /\ k = length (files (this st)).
Proof.
  unfold copyTo, bind at 1, this_files. cbn [fst snd]. unfold bind at 1.
  unfold fse_copySync.
  destruct (array_map _ _ st) as [o1 st1] eqn:Hr.
  apply (array_map_command
           (fun f => CopySync f (targetDirectoryWithTrailingSlash d f))
           (fun f => prim_copySync f (targetDirectoryWithTrailingSlash d f)))
    in Hr as (k & Hk & Hthis & Hcalls & Hnorm).
  intros H. exists k. destruct o1 as [ys|e].
  - cbn in H. injection H as <- <-.
    rewrite Hthis. repeat split; auto. congruence.
  - injection H as <- <-. repeat split; auto; discriminate.
Qed.

Lemma createFolders_spec st o st' :
  createFolders st = (o, st') ->
  this st' = this st
  /\ match files (this st) with
     | [] =>
         o = (prim_ensureDirSync (glob (this st)) (world st)).1
         /\ world st' = (prim_ensureDirSync (glob (this st)) (world st)).2
         /\ calls st' = calls st ++ [EnsureDirSync (glob (this st))]
     | entries =>
         exists k : nat, (k <= length entries)%nat
           /\ calls st' = calls st ++ map EnsureDirSync (take k entries)
           /\ (isNormal o = true -> k = length entries)
     end.
Proof.
  unfold createFolders, bind at 1, this_files. cbn [fst snd].
  destruct (files (this st)) as [|x r] eqn:Hfs.
  - change (array_length (@nil jsstring) =? 0)%Z with true. cbv iota.
    unfold bind, this_glob, fse_ensureDirSync. rewrite command_run.
    intros H. injection H as <- <-. auto.
  - change (array_length (x :: r) =? 0)%Z with false. cbv iota.
    unfold bind at 1. rewrite Hfs. unfold bind at 1.
    unfold fse_ensureDirSync.
    destruct (array_map _ _ st) as [o1 st1] eqn:Hr.
    apply array_map_command in Hr as (k & Hk & Hthis & Hcalls & Hnorm).
    intros H. split.
    + destruct o1; injection H as <- <-; assumption.
    + exists k. destruct o1; injection H as <- <-; auto.
Qed.

(** When the primitive never throws on the entries, the batch completes. *)
Lemma delete_completes st :
  (forall f w, In f (files (this st)) -> (prim_removeSync f w).1 = Normal tt) ->
  isNormal (delete st).1 = true.
Proof.
  intros Hok. unfold delete, bind at 1, this_files. cbn [fst snd].
  unfold bind at 1, fse_removeSync.
  pose proof (array_map_command_completes RemoveSync prim_removeSync _ Hok st) as Hn.
  destruct (array_map _ _ st) as [[ys|e] st1]; [reflexivity | discriminate].
Qed.


Lemma copyTo_completes d st :
  (forall f w, In f (files (this st)) ->
     (prim_copySync f (targetDirectoryWithTrailingSlash d f) w).1 = Normal tt) ->
  isNormal (copyTo d st).1 = true.
Proof.
  intros Hok. unfold copyTo, bind at 1, this_files. cbn [fst snd].
  unfold bind at 1, fse_copySync.
  pose proof (array_map_command_completes
                (fun f => CopySync f (targetDirectoryWithTrailingSlash d f))
                (fun f => prim_copySync f (targetDirectoryWithTrailingSlash d f))
                _ Hok st) as Hn.
  destruct (array_map _ _ st) as [[ys|e] st1]; [reflexivity | discriminate].
Qed.

(** *** The filters *)

(** The filter of the constructor, for either kind: it asks [lstatSync] about
    the entries in order, changes nothing, and stops at the first failure. *)
Lemma array_filter_lstat (kind : Stats -> bool) (l : list jsstring) :
  forall (st : state World) o st',
    array_filter l (fun file => let* stats := fs_lstatSync file in ret (kind stats)) st
    = (o, st') ->
    this st' = this st /\ world st' = world st
    /\ exists k : nat,
         calls st' = calls st ++ map LstatSync (take k l)
         /\ match o with
            | Normal kept =>
                k = length l
                /\ kept = List.filter (statIs kind (world st)) l
                /\ Forall (fun f => isNormal (prim_lstatSync f (world st)) = true) l
            | Thrown e =>
                exists f, In f l /\ prim_lstatSync f (world st) = Thrown e
            end.
Proof.
  induction l as [|x r IH]; intros st o st' H.
  - cbn in H. injection H as <- <-. repeat split; auto.
    exists 0%nat. cbn. rewrite app_nil_r. auto.
  - cbn [array_filter] in H. unfold bind at 1 in H.
    unfold bind at 1, fs_lstatSync, query, ret in H. cbn [fst snd] in H.
    destruct (prim_lstatSync x (world st)) as [stats|e] eqn:Hx.
    + unfold bind in H.
      match type of H with context [array_filter r ?h ?s] =>
        destruct (array_filter r h s) as [o1 st1] eqn:Hr
      end.
      apply IH in Hr as (Hthis & Hworld & k & Hcalls & Hcase). cbn in *.
      destruct o1 as [kept|e]; injection H as <- <-.
      * destruct Hcase as (-> & -> & Hall).
        repeat split; auto. exists (S (length r)). cbn.
        rewrite Hcalls, <- app_assoc. repeat split; auto.
        -- unfold statIs at 3. rewrite Hx. reflexivity.
        -- constructor; [rewrite Hx; reflexivity | exact Hall].
      * destruct Hcase as (f & Hin & Hf).
        repeat split; auto. exists (S k). cbn.
        rewrite Hcalls, <- app_assoc. split; [reflexivity|].
        exists f. auto.
    + injection H as <- <-. cbn. repeat split; auto.
      exists 1%nat. cbn. rewrite take_0. split; [reflexivity|].
      exists x. auto.
Qed.

(** The working set after a filter that returned. *)
Lemma onlyExisting_run (kind : Stats -> bool) (st : state World) o st' :
  (let* fs := this_files in
   let* kept := array_filter fs (fun file =>
                  let* stats := fs_lstatSync file in ret (kind stats)) in
   set_this_files kept) st = (o, st') ->
  world st' = world st /\ glob (this st') = glob (this st)
  /\ exists k : nat,
       calls st' = calls st ++ map LstatSync (take k (files (this st)))
       /\ match o with
          | Normal _ =>
              k = length (files (this st))
              /\ files (this st') = List.filter (statIs kind (world st)) (files (this st))
              /\ Forall (fun f => isNormal (prim_lstatSync f (world st)) = true)
                        (files (this st))
          | Thrown e =>
              files (this st') = files (this st)
              /\ exists f, In f (files (this st)) /\ prim_lstatSync f (world st) = Thrown e
          end.
Proof.
  unfold bind at 1, this_files. cbn [fst snd]. unfold bind at 1.
  destruct (array_filter _ _ st) as [o1 st1] eqn:Hr.
  apply array_filter_lstat in Hr as (Hthis & Hworld & k & Hcalls & Hcase).
  intros H. destruct o1 as [kept|e].
  - cbn in H. injection H as <- <-. cbn. rewrite Hthis.
    repeat split; auto. exists k. tauto.
  - injection H as <- <-. rewrite Hthis. repeat split; auto. exists k. auto.
Qed.

(** *** [all] *)

(** The visit of [all] never assigns the pattern and logs nothing; when it
    returns, the result has the length that was read; and a handler that
    leaves the array as it is at every call leaves the instance as it is. *)
Lemma array_map_in_place_run {B}
    (h : jsstring -> Z -> list jsstring -> World -> outcome B * list jsstring * World)
    (len : nat) :
  forall (k : nat) (st : state World) o st',
    array_map_in_place len k h st = (o, st') ->
    glob (this st') = glob (this st) /\ calls st' = calls st
    /\ (forall out, o = Normal out -> length out = len)
    /\ ((forall x i array w, (h x i array w).1.2 = array) -> this st' = this st).
Proof.
  induction len as [|len IH]; intros k st o st' H.
  - cbn in H. injection H as <- <-. repeat split; auto.
    intros out Hout. injection Hout as <-. reflexivity.
  - cbn [array_map_in_place] in H. unfold bind at 1, this_files in H.
    cbn [fst snd] in H. unfold bind at 1 in H.
    destruct (files (this st) !! k) as [x|] eqn:Hk.
    + unfold bind at 1, callback_on_array in H.
      destruct (h x (Z.of_nat k) (files (this st)) (world st)) as [[oy array] w] eqn:Hh.
      destruct oy as [y|e].
      * cbn [ret] in H. unfold bind in H.
        match type of H with context [array_map_in_place len ?j h ?s] =>
          destruct (array_map_in_place len j h s) as [o1 st1] eqn:Hr
        end.
        apply IH in Hr as (Hglob & Hcalls & Hlen & Hkeep). cbn in *.
        destruct o1 as [ys|e]; injection H as <- <-.
        -- repeat split; auto.
           ++ intros out Hout. injection Hout as <-. cbn.
              rewrite (Hlen ys eq_refl). reflexivity.
           ++ intros Hsame. rewrite (Hkeep Hsame).
              specialize (Hsame x (Z.of_nat k) (files (this st)) (world st)).
              rewrite Hh in Hsame. cbn in Hsame. subst array.
              destruct (this st); reflexivity.
        -- repeat split; auto; [discriminate|].
           intros Hsame. rewrite (Hkeep Hsame).
           specialize (Hsame x (Z.of_nat k) (files (this st)) (world st)).
           rewrite Hh in Hsame. cbn in Hsame. subst array.
           destruct (this st); reflexivity.
      * injection H as <- <-. cbn. repeat split; auto; [discriminate|].
        intros Hsame.
        specialize (Hsame x (Z.of_nat k) (files (this st)) (world st)).
        rewrite Hh in Hsame. cbn in Hsame. subst array.
        destruct (this st); reflexivity.
    + cbn [ret] in H. unfold bind in H.
      destruct (array_map_in_place len (S k) h st) as [o1 st1] eqn:Hr.
      apply IH in Hr as (Hglob & Hcalls & Hlen & Hkeep).
      destruct o1 as [ys|e]; injection H as <- <-.
      * repeat split; auto.
        intros out Hout. injection Hout as <-. cbn.
        rewrite (Hlen ys eq_refl). reflexivity.
      * repeat split; auto. discriminate.
Qed.

Lemma all_run {B}
    (h : jsstring -> Z -> list jsstring -> World -> outcome B * list jsstring * World)
    (st : state World) o st' :
  all h st = (o, st') ->
  glob (this st') = glob (this st) /\ calls st' = calls st
  /\ (forall out, o = Normal out -> length out = length (files (this st)))
  /\ ((forall x i array w, (h x i array w).1.2 = array) -> this st' = this st).
Proof.
  unfold all, bind, this_files. cbn [fst snd]. apply array_map_in_place_run.
Qed.

(** *** The content operations, call by call *)

Lemma read_unfold enc st :
  read enc st
  = let g := glob (this st) in
    if prim_existsSync g (world st) then
      (match prim_readFileSync g enc (world st) with
       | Normal content => Normal (Some content)
       | Thrown e => Thrown e
       end,
       {| this := this st; world := world st;
          calls := calls st ++ [ExistsSync g; ReadFileSync g enc] |})
    else
      (Normal None,
       {| this := this st; world := world st;
          calls := calls st ++ [ExistsSync g] |}).
Proof.
  unfold read, bind, this_glob, fs_existsSync, fs_readFileSync, query, ret.
  cbn. destruct (prim_existsSync _ _); cbn; [|reflexivity].
  rewrite <- app_assoc. destruct (prim_readFileSync _ _ _); reflexivity.
Qed.

Lemma write_unfold content enc st :
  write content enc st
  = let g := glob (this st) in
    let d := path.dirname g in
    let ensured := prim_ensureDirSync d (world st) in
    match ensured.1 with
    | Thrown e =>
        (Thrown e,
         {| this := this st; world := ensured.2;
            calls := calls st ++ [EnsureDirSync d] |})
    | Normal _ =>
        let written := prim_writeFileSync g content enc ensured.2 in
        (written.1,
         {| this := this st; world := written.2;
            calls := calls st ++ [EnsureDirSync d; WriteFileSync g content enc] |})
    end.
Proof.
  unfold write, bind at 1, this_glob. cbn [fst snd].
  unfold bind at 1, fse_ensureDirSync. rewrite command_run.
  cbv zeta. destruct ((prim_ensureDirSync _ _).1); [|reflexivity].
  unfold bind, fs_writeFileSync. cbn [fst snd this]. rewrite command_run.
  cbn. rewrite <- app_assoc. reflexivity.
Qed.

Lemma append_unfold content newLine enc st :
  append content newLine enc st
  = let g := glob (this st) in
    let d := path.dirname g in
    let ensured := prim_ensureDirSync d (world st) in
    match ensured.1 with
    | Thrown e =>
        (Thrown e,
         {| this := this st; world := ensured.2;
            calls := calls st ++ [EnsureDirSync d] |})
    | Normal _ =>
        let data :=
          if negb (prim_existsSync g ensured.2) || negb newLine
          then content else LINE_FEED :: content in
        let appended := prim_appendFileSync g data enc ensured.2 in
        (appended.1,
         {| this := this st; world := appended.2;
            calls := calls st
                     ++ [EnsureDirSync d; ExistsSync g; AppendFileSync g data enc] |})
    end.
Proof.
  unfold append, bind at 1, this_glob. cbn [fst snd].
  unfold bind at 1, fse_ensureDirSync. rewrite command_run.
  cbv zeta. destruct ((prim_ensureDirSync _ _).1); [|reflexivity].
  unfold bind, fs_existsSync, fs_appendFileSync, query. cbn [fst snd this world calls].
  rewrite command_run. cbn [fst snd this world calls].
  rewrite <- !app_assoc. cbn [app].
  destruct (negb (prim_existsSync _ _) || negb newLine); reflexivity.
Qed.

End MethodFacts.

(** ** Operations that do not assign [this] *)

Create HintDb preserves.

Section Preservation.

Context {World : Type} {platform : Platform World}.
Context {value : Type} {json : Json value}.

Lemma preserves_ret {A} (a : A) : preserves_this (ret (World := World) a).
Proof. intros st. reflexivity. Qed.

Lemma preserves_throw {A} (e : error) : preserves_this (throw (World := World) (A := A) e).
Proof. intros st. reflexivity. Qed.

Lemma preserves_lift {A} (o : outcome A) : preserves_this (lift (World := World) o).
Proof. intros st. reflexivity. Qed.

Lemma preserves_this_glob : preserves_this (this_glob (World := World)).
Proof. intros st. reflexivity. Qed.

Lemma preserves_this_files : preserves_this (this_files (World := World)).
Proof. intros st. reflexivity. Qed.

Lemma preserves_callback {A} (h : World -> outcome A * World) :
  preserves_this (callback h).
Proof. intros st. unfold callback. destruct (h (world st)). reflexivity. Qed.

Lemma preserves_query {A} (c : call) (f : World -> outcome A) :
  preserves_this (query c f).
Proof. intros st. reflexivity. Qed.

Lemma preserves_command (c : call) (f : World -> outcome unit * World) :
  preserves_this (command c f).
Proof. intros st. rewrite command_run. reflexivity. Qed.

Lemma preserves_bind {A B} (m : M World A) (k : A -> M World B) :
  preserves_this m -> (forall a, preserves_this (k a)) -> preserves_this (bind m k).
Proof.
  intros Hm Hk st. unfold bind. specialize (Hm st).
  destruct (m st) as [[a|e] st1]; cbn in *; [|exact Hm].
  rewrite Hk. exact Hm.
Qed.

Lemma preserves_array_map {A B} (l : list A) (h : A -> M World B) :
  (forall x, preserves_this (h x)) -> preserves_this (array_map l h).
Proof.
  intros Hh. induction l as [|x r IH]; cbn [array_map].
  - apply preserves_ret.
  - apply preserves_bind; [apply Hh|]. intros y.
    apply preserves_bind; [exact IH|]. intros ys. apply preserves_ret.
Qed.

#[local] Hint Resolve preserves_ret preserves_throw preserves_lift
  preserves_callback preserves_this_glob preserves_this_files preserves_query preserves_command
  preserves_array_map : preserves.

(** Splits a computation along its binds and its branches. *)
Ltac preserve :=
  repeat first
    [ progress eauto with preserves
    | apply preserves_bind; [|intros ?]
    | apply preserves_array_map; intros ?
    | match goal with
      | |- preserves_this (if ?b then _ else _) => destruct b
      | |- preserves_this (match ?o with _ => _ end) => destruct o
      end ].

Lemma preserves_exists : preserves_this (exists_ (World := World)).
Proof. unfold exists_. preserve. Qed.

Lemma preserves_copyTo d : preserves_this (copyTo (World := World) d).
Proof. unfold copyTo, fse_copySync. preserve. Qed.

Lemma preserves_read enc : preserves_this (read (World := World) enc).
Proof. unfold read, fs_existsSync, fs_readFileSync. preserve. Qed.

Lemma preserves_write content enc : preserves_this (write (World := World) content enc).
Proof. unfold write, fse_ensureDirSync, fs_writeFileSync. preserve. Qed.

Lemma preserves_append content newLine enc :
  preserves_this (append (World := World) content newLine enc).
Proof.
  unfold append, fse_ensureDirSync, fs_existsSync, fs_appendFileSync. preserve.
Qed.

Lemma preserves_createFolders : preserves_this (createFolders (World := World)).
Proof. unfold createFolders, fse_ensureDirSync. preserve. Qed.

Lemma preserves_alter handler : preserves_this (alter (World := World) handler).
Proof.
  unfold alter. apply preserves_bind; [apply preserves_read|]. intros content.
  apply preserves_bind; [apply preserves_callback|]. intros altered.
  apply preserves_write.
Qed.

Lemma preserves_alterJSON handler spaces :
  preserves_this (alterJSON (World := World) handler spaces).
Proof.
  unfold alterJSON. apply preserves_bind; [apply preserves_read|]. intros content.
  apply preserves_bind; [destruct content; preserve|]. intros text.
  do 3 (apply preserves_bind; [auto with preserves|]; intros ?).
  apply preserves_write.
Qed.

Lemma preserves_invoke (op : operation) :
  assigns op = false -> preserves_this (invoke (World := World) op).
Proof.
  destruct op; cbn [assigns invoke]; try discriminate; intros _;
    (apply preserves_bind; [|intros ?; apply preserves_ret]).
  - apply preserves_exists.
  - apply preserves_copyTo.
  - apply preserves_read.
  - apply preserves_write.
  - apply preserves_append.
  - apply preserves_createFolders.
  - apply preserves_createFolders.
  - apply preserves_alter.
  - apply preserves_alterJSON.
Qed.

End Preservation.

(** ** UTF-8 round trip *)

Lemma div_4096 c : c / 4096 = c / 64 / 64.
Proof. rewrite N.Div0.div_div. reflexivity. Qed.

Lemma div_262144 c : c / 262144 = c / 64 / 64 / 64.
Proof. rewrite !N.Div0.div_div. reflexivity. Qed.

(** Names the quotient and the remainder of [x] by 64. *)
Ltac split64 x q r :=
  let E := fresh "E" in
  let L := fresh "L" in
  pose proof (N.div_mod x 64 ltac:(discriminate)) as E;
  pose proof (N.mod_lt x 64 ltac:(discriminate)) as L;
  set (q := x / 64) in *; set (r := x mod 64) in *;
  clearbody q r.


Lemma inRange_true lo hi x : lo <= x -> x <= hi -> inRange lo hi x = true.
Proof.
  intros. unfold inRange. apply andb_true_iff. split; apply N.leb_le; assumption.
Qed.

Lemma inRange_false lo hi x : x < lo \/ hi < x -> inRange lo hi x = false.
Proof.
  intros. unfold inRange. apply andb_false_iff. rewrite !N.leb_gt. assumption.
Qed.

Lemma surrogate_bounds c :
  (isHighSurrogate c = true <-> 0xD800 <= c <= 0xDBFF)
  /\ (isLowSurrogate c = true <-> 0xDC00 <= c <= 0xDFFF).
Proof.
  unfold isHighSurrogate, isLowSurrogate.
  rewrite !andb_true_iff, !N.leb_le. tauto.
Qed.

Lemma not_surrogate_bounds c :
  isHighSurrogate c = false -> isLowSurrogate c = false ->
  c < 0xD800 \/ 0xDFFF < c.
Proof.
  unfold isHighSurrogate, isLowSurrogate.
  rewrite !andb_false_iff, !N.leb_gt. lia.
Qed.

(** The range tests of the decoder on bytes bounded by linear facts. *)
Ltac range_side := repeat case N.eqb_spec; intros; lia.

Ltac decode_tests :=
  repeat first
    [ rewrite (proj2 (N.ltb_ge _ _)) by lia
    | rewrite (proj2 (N.ltb_lt _ _)) by lia
    | rewrite inRange_false by range_side
    | rewrite inRange_true by range_side ].

Lemma dec_enc1 c r : c < 0x80 -> utf8_decode (c :: r) = c :: utf8_decode r.
Proof. intros. cbn [utf8_decode]. decode_tests. reflexivity. Qed.

Lemma dec_enc2 c r : 0x80 <= c -> c < 0x800 ->
  utf8_decode ((0xC0 + c / 64) :: (0x80 + c mod 64) :: r) = c :: utf8_decode r.
Proof.
  intros. split64 c q0 r0.
  cbn [utf8_decode]. unfold isContinuation. decode_tests.
  f_equal. lia.
Qed.

Lemma dec_enc3 c r :
  0x800 <= c -> c < 0x10000 -> c < 0xD800 \/ 0xDFFF < c ->
  utf8_decode ((0xE0 + c / 4096) :: (0x80 + (c / 64) mod 64) :: (0x80 + c mod 64) :: r)
  = c :: utf8_decode r.
Proof.
  intros. 
  rewrite div_4096. split64 c q0 r0. split64 q0 q1 r1.
  cbn [utf8_decode]. unfold isContinuation. decode_tests.
  f_equal. lia.
Qed.

Lemma dec_enc4 c d r :
  0xD800 <= c <= 0xDBFF -> 0xDC00 <= d <= 0xDFFF ->
  let cp := 0x10000 + (c - 0xD800) * 0x400 + (d - 0xDC00) in
  utf8_decode ((0xF0 + cp / 262144) :: (0x80 + (cp / 4096) mod 64)
                :: (0x80 + (cp / 64) mod 64) :: (0x80 + cp mod 64) :: r)
  = c :: d :: utf8_decode r.
Proof.
  intros Hh Hl cp.
  assert (Hcp : cp = 0x10000 + (c - 0xD800) * 0x400 + (d - 0xDC00)) by reflexivity.
  clearbody cp.
  rewrite div_262144, div_4096. split64 cp q0 r0. split64 q0 q1 r1. split64 q1 q2 r2.
  cbn [utf8_decode]. unfold isContinuation. decode_tests.
  cbv zeta.
  match goal with |- (_ + ?x / _) :: _ = _ =>
    replace x with ((c - 0xD800) * 0x400 + (d - 0xDC00)) by lia;
    pose proof (N.div_mod ((c - 0xD800) * 0x400 + (d - 0xDC00)) 0x400 ltac:(discriminate));
    pose proof (N.mod_lt ((c - 0xD800) * 0x400 + (d - 0xDC00)) 0x400 ltac:(discriminate));
    set (q := ((c - 0xD800) * 0x400 + (d - 0xDC00)) / 0x400) in *;
    set (m := ((c - 0xD800) * 0x400 + (d - 0xDC00)) mod 0x400) in *;
    clearbody q m
  end.
  f_equal; [lia | f_equal; lia].
Qed.

(** Induction along the scalar values of a well-formed string: a unit that
    is not a surrogate, or a high surrogate and its low partner. *)
Lemma isWellFormed_ind (P : jsstring -> Prop) :
  P [] ->
  (forall c r, isHighSurrogate c = false -> isLowSurrogate c = false -> c < 0x10000 ->
               isWellFormed r = true -> P r -> P (c :: r)) ->
  (forall c d r, isHighSurrogate c = true -> isLowSurrogate d = true ->
                 isWellFormed r = true -> P r -> P (c :: d :: r)) ->
  forall s, isWellFormed s = true -> P s.
Proof.
  intros Hnil Hone Hpair s.
  induction s as [s IH] using (induction_ltof1 _ (@length N)); unfold ltof in IH.
  destruct s as [|c r]; [intros; exact Hnil|].
  cbn [isWellFormed]. destruct (isHighSurrogate c) eqn:Hc.
  - destruct r as [|d r']; [discriminate|].
    intros [Hd Hr]%andb_true_iff.
    apply Hpair; [exact Hc | exact Hd | exact Hr |].
    apply IH; [cbn; lia | exact Hr].
  - intros [[Hl Hlt]%andb_true_iff Hr]%andb_true_iff.
    apply negb_true_iff in Hl. apply N.ltb_lt in Hlt.
    apply Hone; [exact Hc | exact Hl | exact Hlt | exact Hr |].
    apply IH; [cbn; lia | exact Hr].
Qed.

(** Decoding the UTF-8 form of a well-formed string gives the string back. *)
Lemma utf8_roundtrip s : isWellFormed s = true -> utf8_decode (utf8_encode s) = s.
Proof.
  revert s. apply (isWellFormed_ind (fun s => utf8_decode (utf8_encode s) = s)).
  - reflexivity.
  - intros c r Hh Hl Hlt Hr IH.
    pose proof (not_surrogate_bounds c Hh Hl) as Hns.
    cbn [utf8_encode]. rewrite Hh, Hl.
    destruct (N.ltb_spec c 0x80).
    { rewrite dec_enc1 by assumption. congruence. }
    destruct (N.ltb_spec c 0x800).
    { rewrite dec_enc2 by assumption. congruence. }
    rewrite dec_enc3 by assumption. congruence.
  - intros c d r Hh Hl Hr IH.
    apply surrogate_bounds in Hh as Hhb. apply surrogate_bounds in Hl as Hlb.
    cbn [utf8_encode]. rewrite Hh, Hl.
    rewrite (proj2 (N.ltb_ge c 0x80)) by lia.
    rewrite (proj2 (N.ltb_ge c 0x800)) by lia.
    cbv zeta. rewrite dec_enc4 by assumption. congruence.
Qed.


(** U+FFFD, as the encoder writes it for a surrogate without partner, is
    decoded as U+FFFD. *)
Lemma dec_replacement bs : utf8_decode (REPLACEMENT ++ bs) = U_FFFD :: utf8_decode bs.
Proof. reflexivity. Qed.

(** Decoding the UTF-8 form of any string gives the string with its lone
    surrogates replaced. *)
Lemma utf8_decode_encode s :
  isString s = true -> utf8_decode (utf8_encode s) = toWellFormed s.
Proof.
  induction s as [s IH] using (induction_ltof1 _ (@length N)); unfold ltof in IH.
  destruct s as [|c r]; [reflexivity|].
  intros Hs. cbn [isString forallb] in Hs.
  apply andb_true_iff in Hs as [Hc Hr]. apply N.ltb_lt in Hc. fold (isString r) in Hr.
  cbn [utf8_encode toWellFormed].
  destruct (isHighSurrogate c) eqn:Hh.
  - apply surrogate_bounds in Hh as Hhb.
    rewrite (proj2 (N.ltb_ge c 0x80)) by lia.
    rewrite (proj2 (N.ltb_ge c 0x800)) by lia.
    destruct r as [|d r']; [reflexivity|].
    destruct (isLowSurrogate d) eqn:Hl.
    + apply surrogate_bounds in Hl as Hlb.
      cbn [isString forallb] in Hr. apply andb_true_iff in Hr as [_ Hr'].
      cbv zeta. rewrite dec_enc4 by assumption.
      rewrite IH; [reflexivity | cbn; lia | exact Hr'].
    + rewrite dec_replacement, IH; [reflexivity | cbn; lia | exact Hr].
  - destruct (isLowSurrogate c) eqn:Hl.
    + apply surrogate_bounds in Hl as Hlb.
      rewrite (proj2 (N.ltb_ge c 0x80)) by lia.
      rewrite (proj2 (N.ltb_ge c 0x800)) by lia.
      rewrite dec_replacement, IH; [reflexivity | cbn; lia | exact Hr].
    + pose proof (not_surrogate_bounds c Hh Hl) as Hns.
      assert (Hrest : utf8_decode (utf8_encode r) = toWellFormed r)
        by (apply IH; [cbn; lia | exact Hr]).
      destruct (N.ltb_spec c 0x80).
      { rewrite dec_enc1 by assumption. congruence. }
      destruct (N.ltb_spec c 0x800).
      { rewrite dec_enc2 by assumption. congruence. }
      rewrite dec_enc3 by assumption. congruence.
Qed.

(** A well-formed string is a string, and [toWellFormed] changes a string
    exactly when it is not well formed. *)
Lemma isWellFormed_isString s : isWellFormed s = true -> isString s = true.
Proof.
  revert s. apply (isWellFormed_ind (fun s => isString s = true)).
  - reflexivity.
  - intros c r _ _ Hlt _ IH. cbn [isString forallb].
    apply andb_true_iff. split; [apply N.ltb_lt; exact Hlt | exact IH].
  - intros c d r Hh Hl _ IH.
    apply surrogate_bounds in Hh. apply surrogate_bounds in Hl.
    cbn [isString forallb]. rewrite !andb_true_iff, !N.ltb_lt.
    repeat split; [lia | lia | exact IH].
Qed.

Lemma toWellFormed_fixes s :
  isString s = true -> (toWellFormed s = s <-> isWellFormed s = true).
Proof.
  induction s as [s IH] using (induction_ltof1 _ (@length N)); unfold ltof in IH.
  destruct s as [|c r]; [intros; split; reflexivity|].
  intros Hs. cbn [isString forallb] in Hs.
  apply andb_true_iff in Hs as [Hc Hr]. fold (isString r) in Hr.
  cbn [toWellFormed isWellFormed].
  destruct (isHighSurrogate c) eqn:Hh.
  - apply surrogate_bounds in Hh as Hhb.
    destruct r as [|d r'].
    + split; [intros H; injection H as H; unfold U_FFFD in H; lia | discriminate].
    + cbn [isString forallb] in Hr. apply andb_true_iff in Hr as [Hd Hr'].
      destruct (isLowSurrogate d) eqn:Hl.
      * rewrite andb_true_l, <- IH by (cbn; lia || exact Hr').
        split; [intros H; injection H as H; exact H | intros ->; reflexivity].
      * split; [intros H; injection H as H _; unfold U_FFFD in H; lia | discriminate].
  - destruct (isLowSurrogate c) eqn:Hl.
    + apply surrogate_bounds in Hl as Hlb.
      split; [intros H; injection H as H _; unfold U_FFFD in H; lia | discriminate].
    + rewrite Hc. cbn [negb andb]. rewrite <- IH by (cbn; lia || exact Hr).
      split; [intros H; injection H as H; exact H | intros ->; reflexivity].
Qed.

(** A lone surrogate does not survive the round trip. *)
Lemma utf8_lone_surrogate :
  utf8_decode (utf8_encode [0xD800]) = [U_FFFD].
Proof. vm_compute. reflexivity. Qed.

(** ** The reference world honours the contract of [fs] *)

Lemma Ref_entry_insert (w : Ref.World) (k : list jsstring) (n : node) :
  k <> [] -> Ref.entry (<[k := n]> w) k = Some n.
Proof.
  intros Hk. unfold Ref.entry. destruct k; [contradiction|].
  apply lookup_insert_eq.
Qed.

Lemma Ref_store_written (p data : jsstring) (w w' : Ref.World) :
  Ref.store false p data default_encoding w = (Normal tt, w') ->
  p <> [] /\ Ref.entry w' (Ref.resolve p) = Some (File (utf8_encode data)).
Proof.
  unfold Ref.store.
  change (negb (Ref.isUtf8 default_encoding)) with false. cbv iota.
  destruct p as [|c r]; [discriminate|].
  set (k := Ref.resolve (c :: r)).
  assert (Hroot : k = [] -> Ref.entry w k = Some Directory) by (intros ->; reflexivity).
  destruct (Ref.entry w k) as [[old|]|] eqn:E.
  - destruct (path.endsWithSeparator (c :: r)); [discriminate|].
    intros H. injection H as <-. split; [discriminate|].
    apply Ref_entry_insert. intros Hk. specialize (Hroot Hk). discriminate.
  - discriminate.
  - destruct (Ref.entry w (Ref.parent k)) as [[?|]|]; try discriminate.
    destruct (path.endsWithSeparator (c :: r)); [discriminate|].
    intros H. injection H as <-. split; [discriminate|].
    apply Ref_entry_insert. intros Hk. specialize (Hroot Hk). discriminate.
Qed.

Lemma Ref_readsBackWhatItWrote : readsBackWhatItWrote Ref.platform.
Proof.
  intros p data w w' H. cbn in H.
  apply Ref_store_written in H as [Hp He].
  cbn [prim_existsSync prim_readFileSync Ref.platform].
  unfold Ref.existsSync, Ref.readFileSync.
  change (negb (Ref.isUtf8 default_encoding)) with false. cbv iota.
  destruct p; [contradiction|]. rewrite He. split; reflexivity.
Qed.

(** A run is its outcome and the state it leaves. *)
Lemma run_eta {World A} (m : M World A) (st : state World) (o : outcome A) :
  (m st).1 = o -> m st = (o, (m st).2).
Proof. intros <-. destruct (m st); reflexivity. Qed.

(** * The claims *)

(** ** Destination of a move or a copy *)

(** C1.  The destination of a source is [path.join] of the destination
    argument and the base name of the source when the argument ends with a
    separator, and the argument itself when it is not empty and ends
    otherwise, as for [dst/] and [dst/renamed.txt].  The empty argument, which
    does not end with a separator, is not returned as it is: the test of
    line 52 compares [-1] with [-1] and the join branch runs, so that
    [a/b/file.txt] is sent to [file.txt]. *)
Theorem targetDirectoryWithTrailingSlash_rule :
  (forall d f : jsstring,
     targetDirectoryWithTrailingSlash d f
     = if path.endsWithSeparator d then path.join d (path.basename f)
       else match d with
            | [] => path.join [] (path.basename f)
            | _ => d
            end)
  /\ targetDirectoryWithTrailingSlash (js "dst/") (js "a/b/file.txt")
     = js "dst/file.txt"
  /\ targetDirectoryWithTrailingSlash (js "dst/renamed.txt") (js "a/b/file.txt")
     = js "dst/renamed.txt"
  /\ path.endsWithSeparator (js "") = false
  /\ targetDirectoryWithTrailingSlash (js "") (js "a/b/file.txt") = js "file.txt"
  /\ js "file.txt" <> js "".
Proof.
  split; [|repeat split; try (vm_compute; reflexivity); discriminate].
  intros d f. rewrite targetDirectoryWithTrailingSlash_unfold.
  destruct (path.endsWithSeparator d); [reflexivity|].
  destruct d; reflexivity.
Qed.

(** C10, as stated, fails for a source without a base name: with the empty
    destination the source [/] is sent to [.], and its base name is empty. *)
Lemma empty_destination_separator_source :
  path.basename (js "/") = js ""
  /\ targetDirectoryWithTrailingSlash (js "") (js "/") = js "."
  /\ targetDirectoryWithTrailingSlash (js "") (js "/") <> path.basename (js "/").
Proof. repeat split. vm_compute. discriminate. Qed.

Section Claims.

Context {World : Type} {platform : Platform World}.

(** ** [moveTo] *)


(** ** [delete] *)

(** C3.  [delete] returns the length the working set had, the working set
    is then empty and [exists] answers [false]; every entry was handed to
    [removeSync], in order.  It returns whenever [removeSync] does not throw
    on the entries; when a removal throws, the exception reaches the caller
    and the working set is the former one.  [remove] is [delete]. *)
Theorem delete_clears_working_set (st : state World) :
  let removals := map RemoveSync (files (this st)) in
  match delete st with
  | (Normal total, st') =>
      total = array_length (files (this st))
      /\ files (this st') = []
      /\ (exists_ st').1 = Normal false
      /\ glob (this st') = glob (this st)
      /\ calls st' = calls st ++ removals
  | (Thrown _, st') =>
      this st' = this st /\ exists k : nat, calls st' = calls st ++ take k removals
  end
  /\ remove st = delete st
  /\ ((forall file w, In file (files (this st)) ->
         (prim_removeSync file w).1 = Normal tt) ->
      isNormal (delete st).1 = true).
Proof.
  intros removals. split; [|split; [reflexivity | apply delete_completes]].
  destruct (delete st) as [[total|e] st'] eqn:H;
    apply delete_spec in H as (k & _ & Hcalls & H).
  - destruct H as (-> & Hthis & ->).
    rewrite firstn_all in Hcalls. unfold exists_, bind, this_files, ret.
    rewrite Hthis. cbn. auto.
  - split; [exact H|]. exists k. subst removals. rewrite Hcalls, <- firstn_map.
    reflexivity.
Qed.

(** ** [copyTo] *)

(** C4.  [copyTo] visits the working set in its stored order and copies each
    entry, with [copySync], to the destination
    [targetDirectoryWithTrailingSlash] computes for it, each copy made in the
    world the copies before it left.  It never changes the instance.  When
    every copy returns, [copyTo] returns the length of the working set in the
    world the last copy left, every copy issued; when a copy throws, its
    exception reaches the caller in the world that copy left, and the entries
    after it are not copied. *)
Theorem copyTo_keeps_working_set (pDestination : jsstring) (st : state World) :
  let sources := files (this st) in
  let destination := targetDirectoryWithTrailingSlash pDestination in
  let copy := fun file => prim_copySync file (destination file) in
  let copies := map (fun file => CopySync file (destination file)) sources in
  let worldAt := fun i : nat => worldAfter copy (take i sources) (world st) in
  this (copyTo pDestination st).2 = this st
  /\ ((forall (i : nat) file, sources !! i = Some file ->
         (copy file (worldAt i)).1 = Normal tt) ->
      copyTo pDestination st
      = (Normal (array_length sources),
         {| this := this st; world := worldAt (length sources);
            calls := calls st ++ copies |}))
  /\ (forall (i : nat) file e,
        sources !! i = Some file ->
        (forall (j : nat) earlier, (j < i)%nat -> sources !! j = Some earlier ->
           (copy earlier (worldAt j)).1 = Normal tt) ->
        (copy file (worldAt i)).1 = Thrown e ->
        copyTo pDestination st
        = (Thrown e,
           {| this := this st; world := worldAt (S i);
              calls := calls st ++ take (S i) copies |})).
Proof.
  intros sources destination copy copies worldAt.
  split; [apply preserves_copyTo|]. split.
  - intros Hok.
    pose proof (array_map_command_returns
                  (fun file => CopySync file (destination file)) copy sources st Hok)
      as Hvisit.
    unfold copyTo, bind at 1, this_files. cbn [fst snd].
    unfold bind at 1, fse_copySync.
    subst sources destination copy copies worldAt. cbv beta zeta in Hvisit |- *.
    rewrite Hvisit, firstn_all. reflexivity.
  - intros i file e Hi Hbefore Hthrow.
    pose proof (array_map_command_throws
                  (fun file => CopySync file (destination file)) copy sources st
                  i file e Hi Hbefore Hthrow) as Hvisit.
    unfold copyTo, bind at 1, this_files. cbn [fst snd].
    unfold bind at 1, fse_copySync.
    subst sources destination copy copies worldAt. cbv beta zeta in Hvisit |- *.
    rewrite Hvisit, <- firstn_map. reflexivity.
Qed.

End Claims.


(** [delete] on three existing files returns 3 and leaves nothing to
    [exists]. *)
Lemma delete_three_files :
  let st' := (delete threeSources).2 in
  Forall (fun file => Ref.existsSync file (world threeSources) = true)
         (files (this threeSources))
  /\ delete threeSources = (Normal 3%Z, st')
  /\ files (this st') = []
  /\ (exists_ st').1 = Normal false
  /\ Forall (fun file => Ref.existsSync file (world st') = false)
            (files (this threeSources)).
Proof.
  intros st'.
  assert (H : delete threeSources = (Normal 3%Z, st'))
    by (apply run_eta; vm_compute; reflexivity).
  split; [repeat constructor|]. split; [exact H|].
  destruct (delete_clears_working_set threeSources) as [Hrun _].
  rewrite H in Hrun. destruct Hrun as (_ & Hfiles & Hexists & _).
  split; [exact Hfiles|]. split; [exact Hexists|].
  repeat constructor.
Defined.

(** Three sources copied into [backup/], which was not there: the copies hold
    what the sources hold, and the sources are still in place. *)
Lemma copyTo_keeps_working_set_witness :
  let st := threeSources in
  let st' := (copyTo (js "backup/") st).2 in
  let content := fun (w : Ref.World) file => Ref.readFileSync file default_encoding w in
  let copied := [js "backup/a.js"; js "backup/b.js"; js "backup/c.js"] in
  copyTo (js "backup/") st = (Normal 3%Z, st')
  /\ this st' = this st
  /\ calls st'
     = [CopySync (js "src/a.js") (js "backup/a.js");
        CopySync (js "src/b.js") (js "backup/b.js");
        CopySync (js "src/c.js") (js "backup/c.js")]
  /\ Forall (fun file => Ref.existsSync file (world st) = false) copied
  /\ map (content (world st')) copied = [Normal (js "A"); Normal (js "B"); Normal (js "C")]
  /\ map (content (world st')) (files (this st))
     = [Normal (js "A"); Normal (js "B"); Normal (js "C")].
Proof.
  intros st st' content copied.
  destruct (copyTo_keeps_working_set (js "backup/") st) as (Hthis & Hreturns & _).
  assert (Hrun : copyTo (js "backup/") st = (Normal 3%Z, st')).
  { subst st'. rewrite Hreturns; [reflexivity|].
    intros [|[|[|i]]] file Hi; [| | |discriminate];
      injection Hi as <-; vm_compute; reflexivity. }
  split; [exact Hrun|]. split; [exact Hthis|].
  split; [vm_compute; reflexivity|].
  split; [repeat constructor|].
  split; vm_compute; reflexivity.
Defined.

(** ** The empty destination *)

Section EmptyDestination.

Context {World : Type} {platform : Platform World}.

(** C10.  With the empty destination both sides of the test of line 52 are
    [-1], the join branch runs, and the result is [path.join] of the empty
    string and the base name of the source: that base name when it is not
    empty, and [.] when it is.  [moveTo] and [copyTo] called with the empty
    destination therefore target that name for each source. *)
Theorem empty_destination_takes_directory_branch :
  let bare := fun file : jsstring =>
    match path.basename file with [] => [path.CHAR_DOT] | b => b end in
  (lastIndexOf [] path.CHAR_FORWARD_SLASH = (-1)%Z /\ (jslength [] - 1 = -1)%Z)
  /\ (forall file : jsstring,
        targetDirectoryWithTrailingSlash [] file = path.join [] (path.basename file)
        /\ targetDirectoryWithTrailingSlash [] file = bare file)
  /\ (forall (st st' : state World) (total : Z),
        moveTo [] st = (Normal total, st') ->
        files (this st') = map bare (files (this st)))
  /\ (forall (st : state World) (total : Z),
        (copyTo [] st).1 = Normal total ->
        calls (copyTo [] st).2
        = calls st ++ map (fun file => CopySync file (bare file)) (files (this st))).
Proof.
  intros bare.
  assert (Hbare : forall file, targetDirectoryWithTrailingSlash [] file = bare file).
  { intros file. rewrite targetDirectoryWithTrailingSlash_unfold. cbn.
    apply join_empty_basename. }
  split; [split; reflexivity|]. split; [|split].
  - intros file. split; [reflexivity | apply Hbare].
  - intros st st' total H.
    apply moveTo_spec in H as (k & _ & _ & _ & Hthis & _).
    rewrite Hthis. cbn. apply map_ext. exact Hbare.
  - intros st total H. destruct (copyTo [] st) as [o st'] eqn:Hrun.
    cbn [fst snd] in *. subst o.
    apply copyTo_spec in Hrun as (k & _ & _ & Hcalls & Hnorm).
    destruct (Hnorm total eq_refl) as [_ ->]. rewrite firstn_all in Hcalls.
    rewrite Hcalls. f_equal. apply map_ext. intros file. rewrite Hbare. reflexivity.
Qed.

End EmptyDestination.

(** Three sources moved with the empty destination land on their base
    names. *)
Lemma empty_destination_takes_directory_branch_witness :
  let st' := (moveTo [] threeSources).2 in
  moveTo [] threeSources = (Normal 3%Z, st')
  /\ files (this st') = [js "a.js"; js "b.js"; js "c.js"]
  /\ (copyTo [] threeSources).1 = Normal 3%Z
  /\ calls (copyTo [] threeSources).2
     = [CopySync (js "src/a.js") (js "a.js");
        CopySync (js "src/b.js") (js "b.js");
        CopySync (js "src/c.js") (js "c.js")].
Proof.
  intros st'.
  assert (Hm : moveTo [] threeSources = (Normal 3%Z, st'))
    by (apply run_eta; vm_compute; reflexivity).
  assert (Hc : (copyTo [] threeSources).1 = Normal 3%Z) by (vm_compute; reflexivity).
  destruct (empty_destination_takes_directory_branch (World := Ref.World))
    as (_ & _ & Hmove & Hcopy).
  split; [exact Hm|]. split.
  - rewrite (Hmove threeSources st' 3%Z Hm). vm_compute. reflexivity.
  - split; [exact Hc|]. rewrite (Hcopy threeSources 3%Z Hc). vm_compute. reflexivity.
Defined.

(** ** Which operations assign the working set *)

(** C5, as stated, fails for the class: the filters are instance methods that
    assign the working set, and [all] hands the array to its handler.  On a
    folder and a file matched by [dist/*], [onlyExistingFiles] leaves the
    file, [onlyExistingFolders] leaves the folder, and a handler of [all]
    that empties the array it is given leaves nothing. *)
Lemma filters_and_all_assign_files :
  let st := folderAndFile in
  let emptying := fun (file : jsstring) (index : Z) (array : list jsstring)
                      (w : Ref.World) => (Normal JNull, @nil jsstring, w) in
  files (this st) = [js "dist/css"; js "dist/app.js"]
  /\ invoke OpOnlyExistingFiles st
     = (Normal Undefined, (invoke OpOnlyExistingFiles st).2)
  /\ files (this (invoke OpOnlyExistingFiles st).2) = [js "dist/app.js"]
  /\ invoke OpOnlyExistingFolders st
     = (Normal Undefined, (invoke OpOnlyExistingFolders st).2)
  /\ files (this (invoke OpOnlyExistingFolders st).2) = [js "dist/css"]
  /\ invoke (OpAll emptying) st
     = (Normal (Results [Some JNull; None]), (invoke (OpAll emptying) st).2)
  /\ files (this (invoke (OpAll emptying) st).2) = [].
Proof.
  intros st emptying.
  split; [reflexivity|].
  split; [apply run_eta; vm_compute; reflexivity|].
  split; [vm_compute; reflexivity|].
  split; [apply run_eta; vm_compute; reflexivity|].
  split; [vm_compute; reflexivity|].
  split; [apply run_eta; vm_compute; reflexivity|].
  vm_compute. reflexivity.
Qed.

Section Mutation.

Context {World : Type} {platform : Platform World}.
Context {value : Type} {json : Json value}.

(** C5.  No instance method assigns the pattern.  The working set is assigned
    by [delete] and [remove], which empty it, by [moveTo], which replaces it
    with the destinations, and by the filters [onlyExistingFiles] and
    [onlyExistingFolders], which keep the entries [lstatSync] reports as
    files, or as directories; when one of these throws it has not assigned
    the working set.  [all] hands the array to its handler, and leaves the
    working set as it is when the handler leaves the array as it is.  The
    nine other methods leave the working set as it is, whatever their outcome
    and whatever the handler of [alter] or [alterJSON], which is given the
    content only, does to the world; so the working set after one [copyTo]
    and after a second one is the working set before. *)
Theorem operations_that_assign_files (op : operation) (st : state World) :
  let st' := (invoke op st).2 in
  let returns := isNormal (invoke op st).1 in
  let entries := files (this st) in
  glob (this st') = glob (this st)
  /\ match op with
     | OpDelete | OpRemove =>
         files (this st') = if returns then [] else entries
     | OpMoveTo d =>
         files (this st')
         = if returns then map (targetDirectoryWithTrailingSlash d) entries
           else entries
     | OpOnlyExistingFiles =>
         files (this st')
         = if returns then List.filter (statIs isFile (world st)) entries
           else entries
     | OpOnlyExistingFolders =>
         files (this st')
         = if returns then List.filter (statIs isDirectory (world st)) entries
           else entries
     | OpAll h =>
         (forall file index array w, (h file index array w).1.2 = array) ->
         files (this st') = entries
     | OpExists | OpCopyTo _ | OpRead _ | OpWrite _ _ | OpAppend _ _ _
     | OpCreateFolders | OpEnsureFolders | OpAlter _ | OpAlterJSON _ _ =>
         files (this st') = entries
     end
  /\ (forall d : jsstring,
        files (this (copyTo d st).2) = entries
        /\ files (this (copyTo d (copyTo d st).2).2) = files (this (copyTo d st).2)).
Proof.
  intros st' returns entries. subst st' returns entries.
  assert (Hfilter : forall kind : Stats -> bool,
    let filter :=
      (let* fs := this_files in
       let* kept := array_filter fs (fun file =>
                      let* stats := fs_lstatSync file in ret (kind stats)) in
       set_this_files kept) in
    glob (this (filter st).2) = glob (this st)
    /\ files (this (filter st).2)
       = if isNormal (filter st).1
         then List.filter (statIs kind (world st)) (files (this st))
         else files (this st)).
  { intros kind filter. destruct (filter st) as [o st1] eqn:H. subst filter.
    apply onlyExisting_run in H as (_ & Hglob & k & _ & Hcase).
    destruct o as [[]|e]; cbn.
    - destruct Hcase as (_ & Hfiles & _). auto.
    - destruct Hcase as [Hfiles _]. auto. }
  assert (Hdelete :
    glob (this (delete st).2) = glob (this st)
    /\ files (this (delete st).2)
       = if isNormal (delete st).1 then [] else files (this st)).
  { destruct (delete st) as [[n|e] st1] eqn:H;
      apply delete_spec in H as (k & _ & _ & H); cbn.
    - destruct H as (_ & -> & _). auto.
    - rewrite H. auto. }
  split; [|split]; [| |intros d; rewrite !preserves_copyTo; auto];
    destruct op;
    try (match goal with |- context [invoke ?o st] =>
           rewrite (preserves_invoke o eq_refl st)
         end; reflexivity);
    cbn [invoke]; rewrite !bind_ret_run; cbn [fst snd];
    try match goal with |- context [isNormal (match ?o with _ => _ end)] =>
          replace (isNormal (match o with Normal a => _ | Thrown e => _ end))
            with (isNormal o) by (destruct o; reflexivity)
        end.
  - apply (Hfilter isFile).
  - apply (Hfilter isDirectory).
  - destruct (all pHandler st) as [o st1] eqn:H.
    apply all_run in H as (Hglob & _). exact Hglob.
  - apply Hdelete.
  - apply Hdelete.
  - destruct (moveTo pDestination st) as [[n|e] st1] eqn:H;
      apply moveTo_spec in H as (k & _ & _ & H); cbn.
    + destruct H as (_ & -> & _). reflexivity.
    + rewrite H. reflexivity.
  - apply (Hfilter isFile).
  - apply (Hfilter isDirectory).
  - intros Hsame. destruct (all pHandler st) as [o st1] eqn:H.
    apply all_run in H as (_ & _ & _ & Hkeep).
    cbn. rewrite (Hkeep Hsame). reflexivity.
  - apply Hdelete.
  - apply Hdelete.
  - destruct (moveTo pDestination st) as [[n|e] st1] eqn:H;
      apply moveTo_spec in H as (k & _ & _ & H); cbn.
    + destruct H as (_ & -> & _). reflexivity.
    + rewrite H. reflexivity.
Qed.

End Mutation.

(** ** [read], [write] and [append] *)

(** C6, as stated, fails on a string that is not well formed: the lone
    surrogate U+D800 is written as the bytes of U+FFFD and read back as
    U+FFFD. *)
Lemma write_read_lone_surrogate :
  let X : jsstring := [0xD800] in
  let st' := (write X default_encoding logMissing).2 in
  write X default_encoding logMissing = (Normal tt, st')
  /\ (read default_encoding st').1 = Normal (Some [U_FFFD])
  /\ (read default_encoding st').1 <> Normal (Some X).
Proof.
  intros X st'.
  assert (Hread : (read default_encoding st').1 = Normal (Some [U_FFFD]))
    by (vm_compute; reflexivity).
  split; [apply run_eta; vm_compute; reflexivity|].
  split; [exact Hread|]. rewrite Hread. discriminate.
Qed.

Section Content.

Context {World : Type} {platform : Platform World}.

(** C6.  [write] asks for the parent directory of the pattern and then for
    the file to be written at the pattern, in this order and nothing else; it
    throws what the first of them throws, and returns when both return.  On a
    platform whose files read back as the decoded bytes of what was written,
    a [read] after a [write] that returned gives the content with every
    surrogate that has no partner replaced by U+FFFD, whatever the file held
    before: the content itself exactly when it is well formed. *)
Theorem write_then_read (X : jsstring) (st : state World) :
  readsBackWhatItWrote platform ->
  isString X = true ->
  let g := glob (this st) in
  let d := path.dirname g in
  let ensured := prim_ensureDirSync d (world st) in
  let written := prim_writeFileSync g X default_encoding ensured.2 in
  write X default_encoding st
  = match ensured.1 with
    | Thrown e =>
        (Thrown e,
         {| this := this st; world := ensured.2;
            calls := calls st ++ [EnsureDirSync d] |})
    | Normal _ =>
        (written.1,
         {| this := this st; world := written.2;
            calls := calls st ++ [EnsureDirSync d; WriteFileSync g X default_encoding] |})
    end
  /\ (forall st' : state World,
        write X default_encoding st = (Normal tt, st') ->
        (read default_encoding st').1 = Normal (Some (toWellFormed X)))
  /\ (toWellFormed X = X <-> isWellFormed X = true).
Proof.
  intros Hlaw HX g d ensured written.
  split; [apply write_unfold|]. split; [|apply toWellFormed_fixes; exact HX].
  intros st' H. rewrite write_unfold in H. cbv zeta in H.
  fold g d ensured written in H.
  destruct (ensured.1) as [[]|e]; [|discriminate].
  destruct written as [o w'] eqn:Hw.
  cbn [fst snd] in H. injection H as -> <-.
  destruct (Hlaw _ _ _ _ Hw) as [Hexists Hread].
  rewrite read_unfold. cbn [this world glob]. cbv zeta. fold g.
  rewrite Hexists, Hread, utf8_decode_encode by exact HX. reflexivity.
Qed.

(** C7.  [read] returns [null] exactly when [existsSync] finds nothing at
    the pattern, and then it neither throws nor asks for the file; otherwise
    its outcome is that of [readFileSync] at the pattern, the decoded
    content.  It looks at the pattern only: the working set plays no part,
    and neither the instance nor the world changes. *)
Theorem read_null_iff_missing (pEncoding : jsstring) (st : state World) :
  let g := glob (this st) in
  let found := prim_existsSync g (world st) in
  ((read pEncoding st).1 = Normal None <-> found = false)
  /\ (read pEncoding st).1
     = (if found
        then match prim_readFileSync g pEncoding (world st) with
             | Normal content => Normal (Some content)
             | Thrown e => Thrown e
             end
        else Normal None)
  /\ calls (read pEncoding st).2
     = calls st ++ (if found then [ExistsSync g; ReadFileSync g pEncoding]
                    else [ExistsSync g])
  /\ this (read pEncoding st).2 = this st
  /\ world (read pEncoding st).2 = world st
  /\ (forall entries : list jsstring,
        (read pEncoding
           {| this := {| glob := g; files := entries |};
              world := world st; calls := calls st |}).1
        = (read pEncoding st).1).
Proof.
  intros g found. rewrite !read_unfold. cbv zeta. fold g. fold found.
  split; [|split; [|split; [|split; [|split]]]].
  - destruct found; [|tauto]. cbn.
    destruct (prim_readFileSync _ _ _); split; discriminate.
  - destruct found; reflexivity.
  - destruct found; reflexivity.
  - destruct found; reflexivity.
  - destruct found; reflexivity.
  - intros entries. rewrite read_unfold. cbn [this world glob]. cbv zeta.
    fold found. destruct found; reflexivity.
Qed.

End Content.

(** A well-formed text with a pair of surrogates, written over a file that
    held [a] and read back; a text with a surrogate on its own, read back
    with U+FFFD in its place; and a text written below directories that were
    not there. *)
Lemma write_then_read_witness :
  let X : jsstring := [0x68; 0xE9; 0x20AC; 0xD83D; 0xDE00] in
  let Y : jsstring := [0x61; 0xDE00; 0x62; 0xD83D] in
  let written := fun content => (write content default_encoding logHoldingA).2 in
  let deep := instance (js "out/reports/2024/summary.txt") [] ∅ in
  readsBackWhatItWrote Ref.platform
  /\ isString X = true /\ isString Y = true
  /\ (read default_encoding logHoldingA).1 = Normal (Some (js "a"))
  /\ write X default_encoding logHoldingA = (Normal tt, written X)
  /\ isWellFormed X = true
  /\ (read default_encoding (written X)).1 = Normal (Some X)
  /\ write Y default_encoding logHoldingA = (Normal tt, written Y)
  /\ isWellFormed Y = false
  /\ (read default_encoding (written Y)).1 = Normal (Some [0x61; U_FFFD; 0x62; U_FFFD])
  /\ calls (written X)
     = [EnsureDirSync (js "notes"); WriteFileSync (js "notes/log.txt") X default_encoding]
  /\ Forall (fun d => Ref.lstatSync d (world (write X default_encoding deep).2)
                      = Normal {| isFile := false; isDirectory := true |})
            [js "out"; js "out/reports"; js "out/reports/2024"].
Proof.
  intros X Y written deep.
  assert (HX : isString X = true) by reflexivity.
  assert (HY : isString Y = true) by reflexivity.
  assert (HwX : write X default_encoding logHoldingA = (Normal tt, written X))
    by (apply run_eta; vm_compute; reflexivity).
  assert (HwY : write Y default_encoding logHoldingA = (Normal tt, written Y))
    by (apply run_eta; vm_compute; reflexivity).
  destruct (write_then_read X logHoldingA Ref_readsBackWhatItWrote HX)
    as (_ & HreadX & HfixX).
  destruct (write_then_read Y logHoldingA Ref_readsBackWhatItWrote HY)
    as (_ & HreadY & _).
  assert (Hwf : isWellFormed X = true) by reflexivity.
  split; [exact Ref_readsBackWhatItWrote|]. split; [exact HX|]. split; [exact HY|].
  split; [vm_compute; reflexivity|]. split; [exact HwX|]. split; [exact Hwf|].
  split; [rewrite (HreadX _ HwX), (proj2 HfixX Hwf); reflexivity|].
  split; [exact HwY|]. split; [reflexivity|].
  split; [rewrite (HreadY _ HwY); reflexivity|].
  split; [vm_compute; reflexivity|].
  repeat constructor.
Defined.

(** C8.  [append] first asks for the parent directory of the pattern; it
    then looks whether the target exists and appends the content as it is
    when the target does not exist or the flag is off, and a line feed
    followed by the content otherwise.  On the reference world: appending
    [b] to a file holding [a] gives [a], line feed, [b] with the flag and
    [ab] without it, and appending [b] to a missing file creates it holding
    [b], with or without the flag. *)
Theorem append_leading_newline :
  (forall (World : Type) (platform : Platform World)
          (pContent : jsstring) (pNewLine : bool) (pEncoding : jsstring)
          (st : state World),
     let g := glob (this st) in
     let d := path.dirname g in
     let ensured := prim_ensureDirSync d (world st) in
     append pContent pNewLine pEncoding st
     = match ensured.1 with
       | Thrown e =>
           (Thrown e,
            {| this := this st; world := ensured.2;
               calls := calls st ++ [EnsureDirSync d] |})
       | Normal _ =>
           let data :=
             if negb (prim_existsSync g ensured.2) || negb pNewLine
             then pContent else LINE_FEED :: pContent in
           let appended := prim_appendFileSync g data pEncoding ensured.2 in
           (appended.1,
            {| this := this st; world := appended.2;
               calls := calls st
                        ++ [EnsureDirSync d; ExistsSync g;
                            AppendFileSync g data pEncoding] |})
       end)
  /\ (let after := fun (flag : bool) (st : state Ref.World) =>
        (read default_encoding (append (js "b") flag default_encoding st).2).1 in
      (read default_encoding logHoldingA).1 = Normal (Some (js "a"))
      /\ after true logHoldingA = Normal (Some (js "a" ++ LINE_FEED :: js "b"))
      /\ after false logHoldingA = Normal (Some (js "ab"))
      /\ (read default_encoding logMissing).1 = Normal None
      /\ after true logMissing = Normal (Some (js "b"))
      /\ after false logMissing = Normal (Some (js "b"))).
Proof.
  split.
  - intros. apply append_unfold.
  - repeat split; vm_compute; reflexivity.
Qed.

(** ** [createFolders] and [ensureFolders] *)

(** C9, as stated, fails when the pattern is itself an entry of the working
    set: for the folder [dist], matched by its own name, the working set is
    not empty and [createFolders] ensures the pattern path. *)
Lemma createFolders_pattern_among_entries :
  this (getFolders (js "dist")
          {| this := {| glob := []; files := [] |};
             world := world distFolder; calls := [] |}).2
  = this distFolder
  /\ files (this distFolder) <> []
  /\ (createFolders distFolder).1 = Normal tt
  /\ calls (createFolders distFolder).2 = [EnsureDirSync (glob (this distFolder))]
  /\ In (EnsureDirSync (glob (this distFolder))) (calls (createFolders distFolder).2).
Proof.
  assert (Hcalls : calls (createFolders distFolder).2
                   = [EnsureDirSync (glob (this distFolder))])
    by (vm_compute; reflexivity).
  split; [vm_compute; reflexivity|]. split; [discriminate|].
  split; [vm_compute; reflexivity|]. split; [exact Hcalls|].
  rewrite Hcalls. left. reflexivity.
Qed.

Section Folders.

Context {World : Type} {platform : Platform World}.

(** C9.  [ensureFolders] is [createFolders], and [createFolders] never
    changes the instance.  With an empty working set it ensures the pattern,
    and nothing else, as a directory.  With entries it ensures the entries as
    directories, in order, each in the world the entries before it left: it
    returns when every one of them returns, in the world the last one left,
    and throws what the first failing one throws, the entries after it not
    ensured.  It then does not look at the pattern: the run is the same under
    any other pattern, and the pattern path is ensured only if it is one of
    the entries. *)
Theorem createFolders_duality (st : state World) :
  let entries := files (this st) in
  let pattern := glob (this st) in
  let worldAt := fun i : nat =>
    worldAfter prim_ensureDirSync (take i entries) (world st) in
  ensureFolders st = createFolders st
  /\ this (createFolders st).2 = this st
  /\ (entries = [] ->
      createFolders st
      = ((prim_ensureDirSync pattern (world st)).1,
         {| this := this st; world := (prim_ensureDirSync pattern (world st)).2;
            calls := calls st ++ [EnsureDirSync pattern] |}))
  /\ (entries <> [] ->
      ((forall (i : nat) entry, entries !! i = Some entry ->
          (prim_ensureDirSync entry (worldAt i)).1 = Normal tt) ->
       createFolders st
       = (Normal tt,
          {| this := this st; world := worldAt (length entries);
             calls := calls st ++ map EnsureDirSync entries |}))
      /\ (forall (i : nat) entry e,
            entries !! i = Some entry ->
            (forall (j : nat) earlier, (j < i)%nat -> entries !! j = Some earlier ->
               (prim_ensureDirSync earlier (worldAt j)).1 = Normal tt) ->
            (prim_ensureDirSync entry (worldAt i)).1 = Thrown e ->
            createFolders st
            = (Thrown e,
               {| this := this st; world := worldAt (S i);
                  calls := calls st ++ map EnsureDirSync (take (S i) entries) |}))
      /\ (forall other : jsstring,
            createFolders {| this := {| glob := other; files := entries |};
                             world := world st; calls := calls st |}
            = ((createFolders st).1,
               {| this := {| glob := other; files := entries |};
                  world := world (createFolders st).2;
                  calls := calls (createFolders st).2 |})))
  /\ (exists issued : list call,
        calls (createFolders st).2 = calls st ++ issued
        /\ (In (EnsureDirSync pattern) issued -> entries = [] \/ In pattern entries)).
Proof.
  intros entries pattern worldAt.
  split; [reflexivity|]. split; [apply preserves_createFolders|].
  assert (Hrun : forall (x : jsstring) (r : list jsstring) (s : state World),
    files (this s) = x :: r ->
    createFolders s
    = (let visit := array_map (x :: r)
                      (fun file => command (EnsureDirSync file) (prim_ensureDirSync file)) s in
       (match visit.1 with Normal _ => Normal tt | Thrown e => Thrown e end, visit.2))).
  { intros x r s Hs. unfold createFolders, bind at 1, this_files. cbn [fst snd].
    rewrite Hs. change (array_length (x :: r) =? 0)%Z with false. cbv iota.
    unfold bind at 1. cbn [fst snd]. rewrite Hs. unfold bind, fse_ensureDirSync.
    cbv zeta. destruct (array_map (x :: r) _ s) as [[ys|e] s1]; reflexivity. }
  split; [|split].
  - intros Hnil. unfold createFolders, bind at 1, this_files. cbn [fst snd].
    fold entries. rewrite Hnil.
    change (array_length (@nil jsstring) =? 0)%Z with true. cbv iota.
    unfold bind, this_glob, fse_ensureDirSync. rewrite command_run. reflexivity.
  - intros Hne. destruct entries as [|x r] eqn:Hfs; [contradiction|]. clear Hne.
    split; [|split].
    + intros Hok. rewrite (Hrun x r st Hfs). cbv zeta.
      rewrite (array_map_command_returns EnsureDirSync prim_ensureDirSync
                 (x :: r) st Hok).
      subst worldAt. cbv beta. rewrite firstn_all. reflexivity.
    + intros i entry e Hi Hbefore Hthrow. rewrite (Hrun x r st Hfs). cbv zeta.
      rewrite (array_map_command_throws EnsureDirSync prim_ensureDirSync
                 (x :: r) st i entry e Hi Hbefore Hthrow).
      reflexivity.
    + intros other.
      rewrite (Hrun x r {| this := {| glob := other; files := x :: r |};
                           world := world st; calls := calls st |} eq_refl),
              (Hrun x r st Hfs).
      cbv zeta.
      destruct (array_map (x :: r) _ st) as [o1 st1] eqn:Hvisit.
      rewrite (array_map_command_frame EnsureDirSync prim_ensureDirSync (x :: r)
                 {| glob := other; files := x :: r |} st o1 st1 Hvisit).
      reflexivity.
  - destruct (createFolders st) as [o st'] eqn:H. cbn [fst snd].
    apply createFolders_spec in H as [_ Hcases]. fold entries in Hcases.
    destruct entries as [|x r].
    + destruct Hcases as (_ & _ & Hcalls).
      exists [EnsureDirSync pattern]. auto.
    + destruct Hcases as (k & _ & Hcalls & _).
      exists (map EnsureDirSync (take k (x :: r))). split; [exact Hcalls|].
      intros Hin. right. apply in_map_iff in Hin as (y & Hy & Hin).
      injection Hy as ->. apply list_elem_of_In.
      apply (subseteq_take k (x :: r)). apply list_elem_of_In. exact Hin.
Qed.

End Folders.

(** A fresh folder on an empty disk; two folders matched by [build/*] and
    removed since, created again with their parent while the pattern path
    stays absent; the folder [dist], which is its own pattern; and the three
    sources ensured as directories, the first being in the way as a file. *)
Lemma createFolders_duality_witness :
  let fresh := instance (js "out/assets") [] ∅ in
  let directory := Normal {| isFile := false; isDirectory := true |} in
  let rebuilt := (createFolders removedFolders).2 in
  createFolders fresh
  = (Normal tt, (createFolders fresh).2)
  /\ calls (createFolders fresh).2 = [EnsureDirSync (js "out/assets")]
  /\ Ref.lstatSync (js "out/assets") (world (createFolders fresh).2) = directory
  /\ Forall (fun entry => Ref.existsSync entry (world removedFolders) = false)
            (js "build" :: files (this removedFolders))
  /\ createFolders removedFolders = (Normal tt, rebuilt)
  /\ calls rebuilt = [EnsureDirSync (js "build/css"); EnsureDirSync (js "build/js")]
  /\ Forall (fun entry => Ref.lstatSync entry (world rebuilt) = directory)
            (js "build" :: files (this removedFolders))
  /\ Ref.existsSync (glob (this removedFolders)) (world rebuilt) = false
  /\ createFolders distFolder
     = (Normal tt,
        {| this := this distFolder; world := world distFolder;
           calls := [EnsureDirSync (glob (this distFolder))] |})
  /\ In (glob (this distFolder)) (files (this distFolder))
  /\ createFolders threeSources
     = (Ref.ENOTDIR,
        {| this := this threeSources; world := world threeSources;
           calls := [EnsureDirSync (js "src/a.js")] |}).
Proof.
  intros fresh directory rebuilt.
  destruct (createFolders_duality fresh) as (_ & _ & Hempty & _).
  destruct (createFolders_duality removedFolders) as (_ & _ & _ & Hentries & _).
  destruct (Hentries ltac:(discriminate)) as (Hreturns & _ & _).
  destruct (createFolders_duality distFolder) as (_ & _ & _ & Hdist & _).
  destruct (Hdist ltac:(discriminate)) as (Hdistreturns & _ & _).
  destruct (createFolders_duality threeSources) as (_ & _ & _ & Hsources & _).
  destruct (Hsources ltac:(discriminate)) as (_ & Hthrows & _).
  assert (Hrebuilt : createFolders removedFolders = (Normal tt, rebuilt)).
  { subst rebuilt. rewrite Hreturns; [reflexivity|].
    intros [|[|i]] entry Hi; [| |discriminate];
      injection Hi as <-; vm_compute; reflexivity. }
  split; [rewrite (Hempty eq_refl); vm_compute; reflexivity|].
  split; [rewrite (Hempty eq_refl); reflexivity|].
  split; [vm_compute; reflexivity|].
  split; [repeat constructor|].
  split; [exact Hrebuilt|].
  split; [vm_compute; reflexivity|].
  split; [repeat constructor|].
  split; [vm_compute; reflexivity|].
  split.
  { rewrite Hdistreturns.
    - vm_compute. reflexivity.
    - intros [|i] entry Hi; [|discriminate].
      injection Hi as <-. vm_compute. reflexivity. }
  split; [left; reflexivity|].
  rewrite (Hthrows 0%nat (js "src/a.js") (SystemError "ENOTDIR") eq_refl).
  - vm_compute. reflexivity.
  - intros j earlier Hj. lia.
  - vm_compute. reflexivity.
Defined.

(** * Further properties *)

(** ** More on paths *)

Lemma normalize_nonempty (p : jsstring) : path.normalize p <> [].
Proof.
  unfold path.normalize. destruct p as [|c r]; [discriminate|].
  destruct (path.normalizeString (c :: r) _) as [|x q].
  - destruct (path.startsWithSeparator _); [discriminate|].
    destruct (path.endsWithSeparator _); discriminate.
  - destruct (path.startsWithSeparator _); discriminate.
Qed.

Lemma normalize_unfold (p : jsstring) :
  p <> [] ->
  path.normalize p
  = match path.normalizeString p (negb (path.startsWithSeparator p)) with
    | [] =>
        if path.startsWithSeparator p then [path.CHAR_FORWARD_SLASH]
        else if path.endsWithSeparator p
             then [path.CHAR_DOT; path.CHAR_FORWARD_SLASH]
             else [path.CHAR_DOT]
    | q =>
        (if path.startsWithSeparator p then [path.CHAR_FORWARD_SLASH] else [])
          ++ q
          ++ (if path.endsWithSeparator p then [path.CHAR_FORWARD_SLASH] else [])
    end.
Proof. destruct p; [contradiction | reflexivity]. Qed.

Lemma join_nonempty (a b : jsstring) : path.join a b <> [].
Proof.
  unfold path.join. destruct a, b; try apply normalize_nonempty. discriminate.
Qed.

Lemma plainSegment_spec (b : jsstring) :
  plainSegment b = true <->
  b <> [] /\ b <> [path.CHAR_DOT] /\ b <> path.dotdot
  /\ Forall (fun c => path.isPathSeparator c = false) b.
Proof.
  unfold plainSegment, path.jseq.
  rewrite !andb_true_iff, !negb_true_iff, !bool_decide_eq_false.
  rewrite forallb_forall, Forall_forall.
  unfold path.notSeparator. setoid_rewrite negb_true_iff.
  setoid_rewrite <- list_elem_of_In. tauto.
Qed.

Lemma segments_app (a s : jsstring) :
  path.segments (a ++ path.CHAR_FORWARD_SLASH :: s)
  = path.segments a ++ path.segments s.
Proof.
  induction a as [|c r IH]; [reflexivity|].
  cbn [app path.segments]. rewrite IH.
  destruct (path.isPathSeparator c); [reflexivity|].
  destruct (path.segments r) eqn:E; [|reflexivity].
  destruct r; cbn in E; [discriminate|].
  destruct (path.isPathSeparator n); [discriminate|].
  destruct (path.segments r); discriminate.
Qed.

Lemma normalizeSegments_app (allow : bool) (l1 l2 res : list jsstring) :
  path.normalizeSegments allow res (l1 ++ l2)
  = path.normalizeSegments allow (rev (path.normalizeSegments allow res l1)) l2.
Proof.
  revert res. induction l1 as [|seg r IH]; intros res.
  - cbn. rewrite rev_involutive. reflexivity.
  - cbn [app path.normalizeSegments].
    destruct (path.jseq seg [] || path.jseq seg [path.CHAR_DOT]); [apply IH|].
    destruct (path.jseq seg path.dotdot); [|apply IH].
    destruct res as [|top res']; [apply IH|].
    destruct (path.jseq top path.dotdot); apply IH.
Qed.

Lemma normalizeSegments_plain (allow : bool) (res : list jsstring) (b : jsstring) :
  plainSegment b = true ->
  path.normalizeSegments allow res [b] = rev res ++ [b].
Proof.
  intros (H1 & H2 & H3 & _)%plainSegment_spec.
  cbn. unfold path.jseq.
  rewrite !bool_decide_eq_false_2 by assumption. reflexivity.
Qed.

Lemma joinSegments_snoc (l : list jsstring) (b : jsstring) :
  path.joinSegments (l ++ [b])
  = match l with
    | [] => b
    | _ => path.joinSegments l ++ path.CHAR_FORWARD_SLASH :: b
    end.
Proof.
  induction l as [|x r IH]; [reflexivity|].
  destruct r as [|y r']; [reflexivity|].
  change ((x :: y :: r') ++ [b]) with (x :: (y :: r') ++ [b]).
  cbn [path.joinSegments app] in *. rewrite IH.
  rewrite <- app_assoc. reflexivity.
Qed.

(** The base name of [before ++ b], for a plain segment [b] that starts the
    string or follows a separator. *)
Lemma basename_after_separator (before b : jsstring) :
  plainSegment b = true ->
  before = [] \/ last before = Some path.CHAR_FORWARD_SLASH ->
  path.basename (before ++ b) = b
  /\ path.endsWithSeparator (before ++ b) = false.
Proof.
  intros (Hne & _ & _ & Hb)%plainSegment_spec Hbefore.
  assert (Hlast : exists c, last b = Some c /\ path.isPathSeparator c = false).
  { destruct (last b) as [c|] eqn:E.
    - exists c. split; [reflexivity|].
      rewrite Forall_forall in Hb. apply Hb. eapply last_Some_elem_of, E.
    - apply last_None in E. contradiction. }
  destruct Hlast as (c & Hc & Hsep).
  split.
  - unfold path.basename. rewrite rev_app_distr.
    assert (Hrev : Forall (fun c => path.isPathSeparator c = false) (rev b))
      by (apply Forall_rev; exact Hb).
    destruct (rev b) as [|x xs] eqn:E.
    { apply (f_equal (@rev N)) in E. rewrite rev_involutive in E. contradiction. }
    inversion Hrev as [|? ? Hx Hxs]; subst.
    cbn [app path.dropWhile]. rewrite Hx.
    rewrite <- (rev_involutive b), E. f_equal.
    change (x :: xs ++ rev before) with ((x :: xs) ++ rev before).
    assert (Htake : forall l tail,
               Forall (fun c => path.isPathSeparator c = false) l ->
               (tail = [] \/ exists t, tail = path.CHAR_FORWARD_SLASH :: t) ->
               path.takeWhile path.notSeparator (l ++ tail) = l).
    { induction l as [|y ys IH]; intros tail Hl Ht.
      - destruct Ht as [-> | [t ->]]; reflexivity.
      - inversion Hl; subst. cbn. unfold path.notSeparator at 1.
        rewrite H1. cbn. f_equal. apply IH; assumption. }
    apply Htake; [constructor; assumption|].
    destruct Hbefore as [-> | Hl]; [left; reflexivity|].
    right. destruct before as [|z zs] using rev_ind; [discriminate|].
    rewrite last_snoc in Hl. injection Hl as ->.
    rewrite rev_app_distr. cbn. eauto.
  - unfold path.endsWithSeparator.
    assert (last (before ++ b) = Some c) as ->; [|exact Hsep].
    destruct b as [|y ys] using rev_ind; [contradiction|].
    rewrite app_assoc, last_snoc. rewrite last_snoc in Hc. exact Hc.
Qed.

Lemma joinSegments_last_separator (l : list jsstring) :
  l <> [] ->
  last (path.joinSegments l ++ [path.CHAR_FORWARD_SLASH])
  = Some path.CHAR_FORWARD_SLASH.
Proof. intros _. apply last_snoc. Qed.

(** [path.join] keeps a plain last segment as the base name of the result. *)
Lemma basename_join (a b : jsstring) :
  plainSegment b = true ->
  path.basename (path.join a b) = b
  /\ path.endsWithSeparator (path.join a b) = false.
Proof.
  intros Hb. pose proof Hb as (Hne & Hdot & Hdd & Hsep)%plainSegment_spec.
  assert (Hself : path.basename b = b /\ path.endsWithSeparator b = false).
  { apply (basename_after_separator [] b Hb). left. reflexivity. }
  destruct a as [|c r].
  - destruct b as [|x xs]; [contradiction|]. cbn [path.join].
    rewrite normalize_segment by (try discriminate; assumption). exact Hself.
  - destruct b as [|x xs]; [contradiction|]. cbn [path.join].
    set (b := x :: xs) in *. set (a := c :: r).
    set (p := a ++ path.CHAR_FORWARD_SLASH :: b).
    assert (Hend : path.endsWithSeparator p = false).
    { subst p. change (a ++ path.CHAR_FORWARD_SLASH :: b)
        with (a ++ [path.CHAR_FORWARD_SLASH] ++ b). rewrite app_assoc.
      apply basename_after_separator; [exact Hb|]. right. apply last_snoc. }
    assert (Hn : exists before, path.normalize p = before ++ b
                 /\ (before = [] \/ last before = Some path.CHAR_FORWARD_SLASH)).
    { rewrite normalize_unfold by discriminate.
      unfold path.normalizeString. rewrite Hend.
      subst p. rewrite segments_app, (segments_no_separator b Hsep).
      rewrite normalizeSegments_app, normalizeSegments_plain by exact Hb.
      rewrite rev_involutive.
      set (ns := path.normalizeSegments _ [] (path.segments a)).
      rewrite joinSegments_snoc.
      assert (Hwrap : forall q before,
                q = before ++ b ->
                before = [] \/ last before = Some path.CHAR_FORWARD_SLASH ->
                exists before',
                  match q with
                  | [] =>
                      if path.startsWithSeparator (a ++ path.CHAR_FORWARD_SLASH :: b)
                      then [path.CHAR_FORWARD_SLASH] else [path.CHAR_DOT]
                  | n :: l =>
                      (if path.startsWithSeparator (a ++ path.CHAR_FORWARD_SLASH :: b)
                       then [path.CHAR_FORWARD_SLASH] else []) ++ (n :: l) ++ []
                  end = before' ++ b
                  /\ (before' = [] \/ last before' = Some path.CHAR_FORWARD_SLASH)).
      { intros q before Hq Hbefore.
        assert (Hqne : q <> []).
        { rewrite Hq. destruct before; subst b; discriminate. }
        destruct q as [|q0 qs]; [contradiction|].
        rewrite app_nil_r, Hq.
        destruct (path.startsWithSeparator _).
        - exists (path.CHAR_FORWARD_SLASH :: before). split; [reflexivity|]. right.
          destruct Hbefore as [-> | Hl]; [reflexivity|].
          destruct before; [discriminate|]. exact Hl.
        - exists before. split; [reflexivity | exact Hbefore]. }
      destruct ns as [|n0 ns'].
      - apply (Hwrap b []); auto.
      - apply (Hwrap _ (path.joinSegments (n0 :: ns') ++ [path.CHAR_FORWARD_SLASH])).
        + rewrite <- app_assoc. reflexivity.
        + right. apply last_snoc. }
    destruct Hn as (before & -> & Hbefore).
    apply basename_after_separator; assumption.
Qed.

(** ** The destination of a move or a copy, continued *)

(** X1.  The destination computed for a move or a copy is never the empty
    string, whatever the destination argument and the source: [moveSync] and
    [copySync] are never handed an empty destination. *)
Theorem targetDirectoryWithTrailingSlash_nonempty (d f : jsstring) :
  targetDirectoryWithTrailingSlash d f <> [].
Proof.
  rewrite targetDirectoryWithTrailingSlash_unfold.
  destruct (path.endsWithSeparator d || bool_decide (d = [])) eqn:E.
  - apply join_nonempty.
  - apply orb_false_iff in E as [_ E]. apply bool_decide_eq_false in E. exact E.
Qed.

(** X2.  Into a directory the entry keeps its name: when the destination
    argument ends with a separator (or is empty) and the base name of the
    source is a plain segment (not empty, not [.], not [..]), the computed
    destination has the base name of the source and does not end with a
    separator. *)
Theorem targetDirectoryWithTrailingSlash_keeps_base_name (d f : jsstring) :
  plainSegment (path.basename f) = true ->
  path.endsWithSeparator d = true \/ d = [] ->
  path.basename (targetDirectoryWithTrailingSlash d f) = path.basename f
  /\ path.endsWithSeparator (targetDirectoryWithTrailingSlash d f) = false.
Proof.
  intros Hb Hd. rewrite targetDirectoryWithTrailingSlash_unfold.
  assert (path.endsWithSeparator d || bool_decide (d = []) = true) as ->.
  { apply orb_true_iff. destruct Hd as [H | H]; [left; exact H|].
    right. apply bool_decide_eq_true. exact H. }
  apply basename_join. exact Hb.
Qed.

Lemma targetDirectoryWithTrailingSlash_keeps_base_name_witness :
  plainSegment (path.basename (js "a/b/file.txt")) = true
  /\ path.endsWithSeparator (js "../out/./") = true
  /\ targetDirectoryWithTrailingSlash (js "../out/./") (js "a/b/file.txt")
     = js "../out/file.txt"
  /\ path.basename (targetDirectoryWithTrailingSlash (js "../out/./") (js "a/b/file.txt"))
     = js "file.txt".
Proof.
  assert (Hb : plainSegment (path.basename (js "a/b/file.txt")) = true) by reflexivity.
  assert (Hd : path.endsWithSeparator (js "../out/./") = true) by reflexivity.
  split; [exact Hb|]. split; [exact Hd|]. split; [vm_compute; reflexivity|].
  destruct (targetDirectoryWithTrailingSlash_keeps_base_name
              (js "../out/./") (js "a/b/file.txt") Hb (or_introl Hd)) as [-> _].
  vm_compute. reflexivity.
Defined.

(** X3.  The destination of a destination is itself: for a source whose base
    name is a plain segment, computing the destination again from the computed
    destination changes nothing, so a second [moveTo] with the same argument
    asks to move each entry onto itself. *)
Theorem targetDirectoryWithTrailingSlash_idempotent (d f : jsstring) :
  plainSegment (path.basename f) = true ->
  targetDirectoryWithTrailingSlash d (targetDirectoryWithTrailingSlash d f)
  = targetDirectoryWithTrailingSlash d f.
Proof.
  intros Hb. rewrite !(targetDirectoryWithTrailingSlash_unfold d).
  destruct (path.endsWithSeparator d || bool_decide (d = [])); [|reflexivity].
  destruct (basename_join d (path.basename f) Hb) as [-> _]. reflexivity.
Qed.

Lemma targetDirectoryWithTrailingSlash_idempotent_witness :
  plainSegment (path.basename (js "src/a.js")) = true
  /\ targetDirectoryWithTrailingSlash (js "dst/") (js "src/a.js") = js "dst/a.js"
  /\ targetDirectoryWithTrailingSlash (js "dst/") (js "dst/a.js") = js "dst/a.js".
Proof.
  assert (Hb : plainSegment (path.basename (js "src/a.js")) = true) by reflexivity.
  assert (E : targetDirectoryWithTrailingSlash (js "dst/") (js "src/a.js") = js "dst/a.js")
    by (vm_compute; reflexivity).
  split; [exact Hb|]. split; [exact E|].
  rewrite <- E at 1.
  rewrite (targetDirectoryWithTrailingSlash_idempotent (js "dst/") (js "src/a.js") Hb).
  exact E.
Defined.

(** ** Construction *)

Section Construction.

Context {World : Type} {platform : Platform World}.

Lemma array_filter_lstat_completes (kind : Stats -> bool) (l : list jsstring) :
  forall st : state World,
    Forall (fun f => isNormal (prim_lstatSync f (world st)) = true) l ->
    array_filter l (fun file => let* stats := fs_lstatSync file in ret (kind stats)) st
    = (Normal (List.filter (statIs kind (world st)) l),
       {| this := this st; world := world st;
          calls := calls st ++ map LstatSync l |}).
Proof.
  intros st Hall.
  destruct (array_filter l _ st) as [o st'] eqn:H.
  apply array_filter_lstat in H as (Hthis & Hworld & k & Hcalls & Hcase).
  destruct o as [kept|e].
  - destruct Hcase as (-> & -> & _). rewrite firstn_all in Hcalls.
    destruct st'. cbn in *. subst. reflexivity.
  - destruct Hcase as (f & Hin & Hf). rewrite Forall_forall in Hall.
    apply list_elem_of_In, Hall in Hin. rewrite Hf in Hin. discriminate.
Qed.

Lemma constructor_unfold (p : jsstring) (pNew pOnlyFiles pOnlyFolders : bool)
    (st : state World) :
  constructor p pNew pOnlyFiles pOnlyFolders st
  = match (if pNew then Normal [] else prim_globSync p (world st)) with
    | Thrown e =>
        (Thrown e,
         {| this := {| glob := p; files := files (this st) |};
            world := world st; calls := calls st ++ [GlobSync p] |})
    | Normal matched =>
        ((if pOnlyFiles then onlyExistingFiles else ret tt) ;;
         (if pOnlyFolders then onlyExistingFolders else ret tt))
          {| this := {| glob := p; files := matched |};
             world := world st;
             calls := if pNew then calls st else calls st ++ [GlobSync p] |}
    end.
Proof.
  unfold constructor, bind at 1, set_this_glob. cbn [fst snd].
  unfold bind at 1, this_glob. cbn [fst snd this glob].
  unfold bind at 1. destruct pNew.
  - reflexivity.
  - unfold glob_sync, query. cbn [fst snd this glob files world calls].
    destruct (prim_globSync p (world st)); reflexivity.
Qed.

(** X4.  [Files.new(p)] never looks at the disk: it issues no platform call,
    cannot throw, keeps [p] as the pattern and starts with an empty working
    set, so that [exists()] is [false] whatever is at [p]. *)
Theorem new_is_untracked (pPath : jsstring) (st : state World) :
  new pPath st
  = (Normal tt,
     {| this := {| glob := pPath; files := [] |};
        world := world st; calls := calls st |})
  /\ (exists_ (new pPath st).2).1 = Normal false.
Proof.
  unfold new. rewrite constructor_unfold. split; reflexivity.
Qed.

(** What a filtering factory leaves, for either kind. *)
Lemma filtered_construction (kind : Stats -> bool) (p : jsstring)
    (filter : M World unit) (st : state World) :
  filter
  = (let* fs := this_files in
     let* kept := array_filter fs (fun file =>
                    let* stats := fs_lstatSync file in ret (kind stats)) in
     set_this_files kept) ->
  forall o st',
    match prim_globSync p (world st) with
    | Thrown e =>
        (Thrown e,
         {| this := {| glob := p; files := files (this st) |};
            world := world st; calls := calls st ++ [GlobSync p] |})
    | Normal matched =>
        filter {| this := {| glob := p; files := matched |};
                  world := world st; calls := calls st ++ [GlobSync p] |}
    end = (o, st') ->
    world st' = world st /\ glob (this st') = p
    /\ match o with
       | Normal _ =>
           exists matched,
             prim_globSync p (world st) = Normal matched
             /\ Forall (fun f => isNormal (prim_lstatSync f (world st)) = true) matched
             /\ files (this st') = List.filter (statIs kind (world st)) matched
             /\ calls st' = calls st ++ GlobSync p :: map LstatSync matched
       | Thrown e =>
           prim_globSync p (world st) = Thrown e
           \/ exists matched f,
                prim_globSync p (world st) = Normal matched
                /\ In f matched /\ prim_lstatSync f (world st) = Thrown e
       end.
Proof.
  intros -> o st' H.
  destruct (prim_globSync p (world st)) as [matched|e] eqn:Hg.
  - apply onlyExisting_run in H as (Hworld & Hglob & k & Hcalls & Hcase).
    cbn in *. repeat split; auto. destruct o as [[]|e].
    + destruct Hcase as (-> & Hfiles & Hall). exists matched.
      rewrite firstn_all, <- app_assoc in Hcalls. auto.
    + destruct Hcase as (_ & f & Hin & Hf). right. exists matched, f. auto.
  - injection H as <- <-. cbn. auto.
Qed.

(** X5.  [Files.getFiles(p)] only reads the world.  When it returns, the
    working set is the matches of [glob.sync(p)] for which [lstatSync] answers
    [isFile()], in the order of the matches; [lstatSync] was asked once about
    every match and answered for each.  When it throws, either [glob.sync]
    threw or [lstatSync] threw on a match, and that exception is the one the
    caller gets. *)
Theorem getFiles_keeps_the_files (pGlob : jsstring) (st : state World) :
  world (getFiles pGlob st).2 = world st
  /\ glob (this (getFiles pGlob st).2) = pGlob
  /\ match (getFiles pGlob st).1 with
     | Normal _ =>
         exists matched,
           prim_globSync pGlob (world st) = Normal matched
           /\ Forall (fun f => isNormal (prim_lstatSync f (world st)) = true) matched
           /\ files (this (getFiles pGlob st).2)
              = List.filter (statIs isFile (world st)) matched
           /\ Forall (fun f => statIs isFile (world st) f = true)
                     (files (this (getFiles pGlob st).2))
           /\ calls (getFiles pGlob st).2
              = calls st ++ GlobSync pGlob :: map LstatSync matched
     | Thrown e =>
         prim_globSync pGlob (world st) = Thrown e
         \/ exists matched f,
              prim_globSync pGlob (world st) = Normal matched
              /\ In f matched /\ prim_lstatSync f (world st) = Thrown e
     end.
Proof.
  destruct (getFiles pGlob st) as [o st'] eqn:H. cbn [fst snd].
  unfold getFiles in H. rewrite constructor_unfold in H. cbv iota in H.
  assert (Hshape :
    match prim_globSync pGlob (world st) with
    | Thrown e =>
        (Thrown e,
         {| this := {| glob := pGlob; files := files (this st) |};
            world := world st; calls := calls st ++ [GlobSync pGlob] |})
    | Normal matched =>
        onlyExistingFiles
          {| this := {| glob := pGlob; files := matched |};
             world := world st; calls := calls st ++ [GlobSync pGlob] |}
    end = (o, st')).
  { destruct (prim_globSync pGlob (world st)); [|exact H].
    unfold bind in H.
    destruct (onlyExistingFiles _) as [[[]|e] s]; exact H. }
  apply (filtered_construction isFile pGlob onlyExistingFiles st eq_refl) in Hshape
    as (Hworld & Hglob & Hcase).
  repeat split; auto. destruct o as [[]|e]; [|exact Hcase].
  destruct Hcase as (matched & Hg & Hall & Hfiles & Hcalls).
  exists matched. repeat split; auto.
  rewrite Hfiles, Forall_forall. intros f Hin.
  apply list_elem_of_In, filter_In in Hin. tauto.
Qed.

(** X6.  [Files.getFolders(p)], likewise: when it returns, the working set
    is the matches for which [lstatSync] answers [isDirectory()], in the
    order of the matches; a failure of [glob.sync] or of [lstatSync] on a
    match reaches the caller. *)
Theorem getFolders_keeps_the_folders (pGlob : jsstring) (st : state World) :
  world (getFolders pGlob st).2 = world st
  /\ glob (this (getFolders pGlob st).2) = pGlob
  /\ match (getFolders pGlob st).1 with
     | Normal _ =>
         exists matched,
           prim_globSync pGlob (world st) = Normal matched
           /\ Forall (fun f => isNormal (prim_lstatSync f (world st)) = true) matched
           /\ files (this (getFolders pGlob st).2)
              = List.filter (statIs isDirectory (world st)) matched
           /\ Forall (fun f => statIs isDirectory (world st) f = true)
                     (files (this (getFolders pGlob st).2))
           /\ calls (getFolders pGlob st).2
              = calls st ++ GlobSync pGlob :: map LstatSync matched
     | Thrown e =>
         prim_globSync pGlob (world st) = Thrown e
         \/ exists matched f,
              prim_globSync pGlob (world st) = Normal matched
              /\ In f matched /\ prim_lstatSync f (world st) = Thrown e
     end.
Proof.
  destruct (getFolders pGlob st) as [o st'] eqn:H. cbn [fst snd].
  unfold getFolders in H. rewrite constructor_unfold in H. cbv iota in H.
  assert (Hshape :
    match prim_globSync pGlob (world st) with
    | Thrown e =>
        (Thrown e,
         {| this := {| glob := pGlob; files := files (this st) |};
            world := world st; calls := calls st ++ [GlobSync pGlob] |})
    | Normal matched =>
        onlyExistingFolders
          {| this := {| glob := pGlob; files := matched |};
             world := world st; calls := calls st ++ [GlobSync pGlob] |}
    end = (o, st')).
  { destruct (prim_globSync pGlob (world st)); exact H. }
  apply (filtered_construction isDirectory pGlob onlyExistingFolders st eq_refl)
    in Hshape as (Hworld & Hglob & Hcase).
  repeat split; auto. destruct o as [[]|e]; [|exact Hcase].
  destruct Hcase as (matched & Hg & Hall & Hfiles & Hcalls).
  exists matched. repeat split; auto.
  rewrite Hfiles, Forall_forall. intros f Hin.
  apply list_elem_of_In, filter_In in Hin. tauto.
Qed.

Lemma filter_sublist {A} (keep : A -> bool) (l : list A) :
  List.filter keep l `sublist_of` l.
Proof.
  induction l as [|x r IH]; cbn; [constructor|].
  destruct (keep x); [apply sublist_skip | apply sublist_cons]; exact IH.
Qed.

Lemma filter_filter_same {A} (keep : A -> bool) (l : list A) :
  List.filter keep (List.filter keep l) = List.filter keep l.
Proof.
  induction l as [|x r IH]; [reflexivity|]. cbn.
  destruct (keep x) eqn:E; [|exact IH]. cbn. rewrite E, IH. reflexivity.
Qed.

Lemma onlyExisting_completes (kind : Stats -> bool) (st : state World) :
  Forall (fun f => isNormal (prim_lstatSync f (world st)) = true) (files (this st)) ->
  (let* fs := this_files in
   let* kept := array_filter fs (fun file =>
                  let* stats := fs_lstatSync file in ret (kind stats)) in
   set_this_files kept) st
  = (Normal tt,
     {| this := {| glob := glob (this st);
                   files := List.filter (statIs kind (world st)) (files (this st)) |};
        world := world st;
        calls := calls st ++ map LstatSync (files (this st)) |}).
Proof.
  intros Hall. unfold bind at 1, this_files. cbn [fst snd]. unfold bind at 1.
  rewrite array_filter_lstat_completes by exact Hall. reflexivity.
Qed.

Lemma bind_returns {A B} (m : M World A) (k : A -> M World B) st a st' :
  m st = (Normal a, st') -> bind m k st = k a st'.
Proof. intros H. unfold bind. rewrite H. reflexivity. Qed.

Lemma filtering_factory_run (pGlob : jsstring) (matched : list jsstring)
    (st : state World) :
  prim_globSync pGlob (world st) = Normal matched ->
  Forall (fun f => isNormal (prim_lstatSync f (world st)) = true) matched ->
  let built := fun kind =>
    (Normal tt,
     {| this := {| glob := pGlob;
                   files := List.filter (statIs kind (world st)) matched |};
        world := world st;
        calls := (calls st ++ [GlobSync pGlob]) ++ map LstatSync matched |}) in
  getFiles pGlob st = built isFile /\ getFolders pGlob st = built isDirectory.
Proof.
  intros Hg Hall built. subst built. cbv beta.
  unfold getFiles, getFolders. rewrite !constructor_unfold, Hg. cbv iota.
  split.
  - erewrite bind_returns; [reflexivity|].
    apply (onlyExisting_completes isFile). exact Hall.
  - erewrite bind_returns; [|reflexivity].
    apply (onlyExisting_completes isDirectory). exact Hall.
Qed.

(** X7.  On the same world and pattern, when [glob.sync] and [lstatSync]
    answer, the three factories return; [any] keeps every match, [getFiles]
    and [getFolders] keep sublists of it; and when [lstatSync] never answers
    both [isFile()] and [isDirectory()], no path is selected by both. *)
Theorem factories_select_from_the_matches (pGlob : jsstring) (matched : list jsstring)
    (st : state World) :
  prim_globSync pGlob (world st) = Normal matched ->
  Forall (fun f => isNormal (prim_lstatSync f (world st)) = true) matched ->
  let selected := fun (factory : jsstring -> M World unit) =>
    files (this (factory pGlob st).2) in
  ((any pGlob st).1 = Normal tt /\ (getFiles pGlob st).1 = Normal tt
   /\ (getFolders pGlob st).1 = Normal tt)
  /\ selected any = matched
  /\ selected getFiles `sublist_of` selected any
  /\ selected getFolders `sublist_of` selected any
  /\ ((forall f stats, prim_lstatSync f (world st) = Normal stats ->
         isFile stats && isDirectory stats = false) ->
      forall f, In f (selected getFiles) -> ~ In f (selected getFolders)).
Proof.
  intros Hg Hall selected. subst selected. cbv beta.
  destruct (filtering_factory_run pGlob matched st Hg Hall) as [-> ->].
  assert (Hany : any pGlob st
                 = (Normal tt,
                    {| this := {| glob := pGlob; files := matched |};
                       world := world st; calls := calls st ++ [GlobSync pGlob] |})).
  { unfold any. rewrite constructor_unfold, Hg. reflexivity. }
  rewrite Hany. cbn [fst snd this files].
  repeat split; try apply filter_sublist.
  intros Hexclusive f [_ Hfile]%filter_In [_ Hdir]%filter_In.
  unfold statIs in *.
  destruct (prim_lstatSync f (world st)) as [stats|e] eqn:Hf; [|discriminate].
  specialize (Hexclusive f stats Hf). rewrite Hfile, Hdir in Hexclusive.
  discriminate.
Qed.

(** X8.  Filtering is done once: after [onlyExistingFiles] (or
    [onlyExistingFolders]) has returned, running it again returns and leaves
    the instance and the world as they are. *)
Theorem onlyExisting_filters_once (st st1 : state World) :
  (onlyExistingFiles st = (Normal tt, st1) ->
   exists st2, onlyExistingFiles st1 = (Normal tt, st2)
               /\ this st2 = this st1 /\ world st2 = world st1)
  /\ (onlyExistingFolders st = (Normal tt, st1) ->
      exists st2, onlyExistingFolders st1 = (Normal tt, st2)
                  /\ this st2 = this st1 /\ world st2 = world st1).
Proof.
  assert (Hboth : forall kind : Stats -> bool,
    let filter :=
      (let* fs := this_files in
       let* kept := array_filter fs (fun file =>
                      let* stats := fs_lstatSync file in ret (kind stats)) in
       set_this_files kept) in
    filter st = (Normal tt, st1) ->
    exists st2, filter st1 = (Normal tt, st2)
                /\ this st2 = this st1 /\ world st2 = world st1).
  { intros kind filter H. subst filter.
    apply onlyExisting_run in H as (Hworld & Hglob & k & _ & _ & Hfiles & Hall).
    assert (Hall1 : Forall (fun f => isNormal (prim_lstatSync f (world st1)) = true)
                           (files (this st1))).
    { rewrite Hworld, Hfiles, Forall_forall. rewrite Forall_forall in Hall.
      intros f Hin. apply Hall. apply list_elem_of_In in Hin.
      apply filter_In in Hin as [Hin _]. apply list_elem_of_In. exact Hin. }
    rewrite onlyExisting_completes by exact Hall1.
    eexists. split; [reflexivity|]. cbn. split; [|reflexivity].
    rewrite Hworld, Hfiles, filter_filter_same, <- Hfiles.
    destruct (this st1). reflexivity. }
  split; [apply (Hboth isFile) | apply (Hboth isDirectory)].
Qed.

End Construction.

Lemma Ref_lstat_exclusive (w : Ref.World) (f : jsstring) (stats : Stats) :
  prim_lstatSync f w = Normal stats -> isFile stats && isDirectory stats = false.
Proof.
  cbn. unfold Ref.lstatSync. destruct f; [discriminate|].
  destruct (Ref.entry w _) as [[?|]|]; intros H; try discriminate;
    injection H as <-; reflexivity.
Qed.

(** A folder asked for by its name: [any] and [getFolders] select it,
    [getFiles] selects nothing. *)
Lemma factories_select_from_the_matches_witness :
  let st := instance [] [] (disk [(js "dist/app.js", js "x")]) in
  prim_globSync (js "dist") (world st) = Normal [js "dist"]
  /\ Forall (fun f => isNormal (prim_lstatSync f (world st)) = true) [js "dist"]
  /\ files (this (any (js "dist") st).2) = [js "dist"]
  /\ files (this (getFolders (js "dist") st).2) = [js "dist"]
  /\ files (this (getFiles (js "dist") st).2) = []
  /\ (forall f, In f (files (this (getFiles (js "dist") st).2)) ->
                ~ In f (files (this (getFolders (js "dist") st).2))).
Proof.
  intros st.
  assert (Hg : prim_globSync (js "dist") (world st) = Normal [js "dist"])
    by (vm_compute; reflexivity).
  assert (Hall : Forall (fun f => isNormal (prim_lstatSync f (world st)) = true)
                        [js "dist"]) by (repeat constructor).
  destruct (factories_select_from_the_matches (js "dist") [js "dist"] st Hg Hall)
    as (_ & Hany & _ & _ & Hdisjoint).
  split; [exact Hg|]. split; [exact Hall|]. split; [exact Hany|].
  split; [vm_compute; reflexivity|]. split; [vm_compute; reflexivity|].
  apply Hdisjoint. intros f stats. apply Ref_lstat_exclusive.
Defined.

(** A folder and a file filtered twice. *)
Lemma onlyExisting_filters_once_witness :
  let st := instance (js "dist*") [js "dist"; js "dist/app.js"]
              (disk [(js "dist/app.js", js "x")]) in
  let st1 := (onlyExistingFiles st).2 in
  onlyExistingFiles st = (Normal tt, st1)
  /\ files (this st1) = [js "dist/app.js"]
  /\ exists st2, onlyExistingFiles st1 = (Normal tt, st2) /\ this st2 = this st1.
Proof.
  intros st st1.
  assert (H : onlyExistingFiles st = (Normal tt, st1))
    by (apply run_eta; vm_compute; reflexivity).
  split; [exact H|]. split; [vm_compute; reflexivity|].
  destruct (onlyExisting_filters_once st st1) as [Hfiles _].
  destruct (Hfiles H) as (st2 & H2 & Hthis & _).
  exists st2. auto.
Defined.

(** ** [all] *)

Section AllFacts.

Context {World : Type} {platform : Platform World}.

(** A handler that is a function of its arguments and leaves the array
    alone. *)
Lemma array_map_in_place_pure {B} (g : jsstring -> Z -> list jsstring -> B)
    (len : nat) :
  forall (k : nat) (st : state World),
    (k + len = length (files (this st)))%nat ->
    array_map_in_place len k
      (fun file index array w => (Normal (g file index array), array, w)) st
    = (Normal (imap (fun j file => Some (g file (Z.of_nat (k + j)) (files (this st))))
                    (drop k (files (this st)))), st).
Proof.
  induction len as [|len IH]; intros k st Hlen.
  - rewrite drop_ge by lia. reflexivity.
  - destruct (lookup_lt_is_Some_2 (files (this st)) k ltac:(lia)) as [x Hx].
    rewrite (drop_S _ _ _ Hx).
    destruct st as [[pattern entries] w logged]. cbn [this files] in *.
    cbn [array_map_in_place]. unfold bind at 1, this_files. cbn [fst snd this files].
    rewrite Hx. unfold bind at 1. unfold bind at 1, callback_on_array.
    cbn [fst snd this files glob world calls ret]. unfold bind.
    rewrite IH by (cbn; lia). cbn [this files ret imap].
    replace (k + 0)%nat with k by lia.
    apply (f_equal (fun tail =>
             (Normal (Some (g x (Z.of_nat k) entries) :: tail),
              {| this := {| glob := pattern; files := entries |};
                 world := w; calls := logged |}))).
    apply imap_ext. intros j file _. cbn [compose].
    replace (S k + j)%nat with (k + S j)%nat by lia. reflexivity.
Qed.

(** Once the array is empty, every index left is a hole. *)
Lemma array_map_in_place_holes {B}
    (h : jsstring -> Z -> list jsstring -> World -> outcome B * list jsstring * World)
    (len : nat) :
  forall (k : nat) (st : state World),
    files (this st) = [] ->
    array_map_in_place len k h st = (Normal (replicate len None), st).
Proof.
  induction len as [|len IH]; intros k st Hnil; [reflexivity|].
  cbn [array_map_in_place]. unfold bind at 1, this_files. cbn [fst snd].
  rewrite Hnil, lookup_nil. unfold bind at 1. cbn [ret fst snd]. unfold bind.
  rewrite IH by exact Hnil. reflexivity.
Qed.

(** X9.  [all(handler)] hands the handler the array of the working set
    itself.  It never assigns the pattern and issues no platform call of its
    own; when it returns, the result has one slot for each entry the working
    set had at the call, whatever the handler did to the array; and a handler
    that leaves the array as it is leaves the instance as it is.  For a
    handler that is a function of the entry, its index and the array, the
    slots hold its results on the entries, in order, with indices from 0.  A
    handler that empties the array at its first call is not called again: the
    other slots are holes, and the working set is left empty. *)
Theorem all_visits_the_working_set {B}
    (pHandler : jsstring -> Z -> list jsstring -> World
                -> outcome B * list jsstring * World)
    (g : jsstring -> Z -> list jsstring -> B) (st : state World) :
  let entries := files (this st) in
  glob (this (all pHandler st).2) = glob (this st)
  /\ calls (all pHandler st).2 = calls st
  /\ (forall out, (all pHandler st).1 = Normal out -> length out = length entries)
  /\ ((forall file index array w, (pHandler file index array w).1.2 = array) ->
      this (all pHandler st).2 = this st)
  /\ all (fun file index array w => (Normal (g file index array), array, w)) st
     = (Normal (imap (fun j file => Some (g file (Z.of_nat j) entries)) entries), st)
  /\ all (fun file index array w => (Normal (g file index array), [], w)) st
     = (Normal match entries with
               | [] => []
               | file :: others =>
                   Some (g file 0%Z entries) :: replicate (length others) None
               end,
        {| this := {| glob := glob (this st); files := [] |};
           world := world st; calls := calls st |}).
Proof.
  intros entries.
  destruct (all pHandler st) as [o st'] eqn:H. cbn [fst snd].
  apply all_run in H as (Hglob & Hcalls & Hlen & Hkeep).
  split; [exact Hglob|]. split; [exact Hcalls|]. split; [exact Hlen|].
  split; [exact Hkeep|]. split.
  - unfold all, bind, this_files. cbn [fst snd].
    rewrite (array_map_in_place_pure g (length (files (this st))) 0 st eq_refl).
    rewrite drop_0. reflexivity.
  - unfold all, bind at 1, this_files. cbn [fst snd]. subst entries.
    destruct st as [[pattern [|file others]] w logged]; [reflexivity|].
    cbn [this files length array_map_in_place].
    unfold bind, this_files, callback_on_array, ret.
    cbn [fst snd this files glob world calls lookup list_lookup].
    rewrite array_map_in_place_holes by reflexivity. reflexivity.
Qed.

End AllFacts.

(** The three sources visited by a handler that returns the length of each
    path and leaves the array alone, and by one that empties the array. *)
Lemma all_visits_the_working_set_witness :
  let measure := fun (file : jsstring) (index : Z) (array : list jsstring) =>
    (index, jslength file, array_length array) in
  all (fun file index array w => (Normal (measure file index array), array, w))
      threeSources
  = (Normal [Some (0, 8, 3); Some (1, 8, 3); Some (2, 8, 3)]%Z, threeSources)
  /\ (all (fun file index array w => (Normal (measure file index array), [], w))
          threeSources).1
     = Normal [Some (0, 8, 3)%Z; None; None]
  /\ files (this (all (fun file index array w =>
                         (Normal (measure file index array), [], w))
                      threeSources).2) = [].
Proof.
  intros measure.
  destruct (all_visits_the_working_set
              (fun file index array w => (Normal (measure file index array), array, w))
              measure threeSources) as (_ & _ & _ & _ & Hpure & Hemptied).
  split; [rewrite Hpure; reflexivity|].
  rewrite Hemptied. split; reflexivity.
Defined.

(** ** Batches *)

Section Batches.

Context {World : Type} {platform : Platform World}.

Lemma empty_working_set_batches_aux (pDestination : jsstring) (st : state World) :
  files (this st) = [] ->
  delete st = (Normal 0%Z, st)
  /\ moveTo pDestination st = (Normal 0%Z, st)
  /\ copyTo pDestination st = (Normal 0%Z, st)
  /\ exists_ st = (Normal false, st).
Proof.
  destruct st as [[g fs] w c]. cbn. intros ->. repeat split; reflexivity.
Qed.

(** X10.  On an empty working set (as after [Files.new] or [delete])
    [delete], [remove], [moveTo] and [copyTo] return 0, call nothing and
    change nothing, and [exists] is [false]. *)
Theorem empty_working_set_batches (pDestination : jsstring) (st : state World) :
  files (this st) = [] ->
  delete st = (Normal 0%Z, st)
  /\ remove st = (Normal 0%Z, st)
  /\ moveTo pDestination st = (Normal 0%Z, st)
  /\ copyTo pDestination st = (Normal 0%Z, st)
  /\ exists_ st = (Normal false, st).
Proof.
  intros H. destruct (empty_working_set_batches_aux pDestination st H) as (? & ? & ? & ?).
  repeat split; assumption.
Qed.

(** X11.  [delete] exhausts the instance: after a [delete] that returned,
    a further [delete], [moveTo] or [copyTo] returns 0 and does nothing, and
    [createFolders] ensures the pattern itself as a directory. *)
Theorem delete_exhausts (pDestination : jsstring) (st st1 : state World) (total : Z) :
  delete st = (Normal total, st1) ->
  delete st1 = (Normal 0%Z, st1)
  /\ moveTo pDestination st1 = (Normal 0%Z, st1)
  /\ copyTo pDestination st1 = (Normal 0%Z, st1)
  /\ calls (createFolders st1).2 = calls st1 ++ [EnsureDirSync (glob (this st))].
Proof.
  intros H. apply delete_spec in H as (k & _ & _ & _ & Hthis & _).
  assert (Hfiles : files (this st1) = []) by (rewrite Hthis; reflexivity).
  destruct (empty_working_set_batches_aux pDestination st1 Hfiles) as (? & ? & ? & _).
  repeat split; auto.
  destruct (createFolders st1) as [o st2] eqn:Hc.
  apply createFolders_spec in Hc as [_ Hcase]. rewrite Hfiles in Hcase.
  cbn [snd]. destruct Hcase as (_ & _ & ->). rewrite Hthis. reflexivity.
Qed.

Lemma verbatim_destination (d : jsstring) :
  d <> [] -> path.endsWithSeparator d = false ->
  forall f, targetDirectoryWithTrailingSlash d f = d.
Proof.
  intros Hne Hend f. rewrite targetDirectoryWithTrailingSlash_unfold, Hend.
  rewrite bool_decide_eq_false_2 by exact Hne. reflexivity.
Qed.

Lemma map_constant {A B} (g : A -> B) (b : B) (l : list A) :
  (forall x, g x = b) -> map g l = replicate (length l) b.
Proof.
  intros Hg. induction l as [|x r IH]; [reflexivity|].
  cbn. rewrite Hg, IH. reflexivity.
Qed.

(** X12.  With a destination that is not empty and does not end with a
    separator, every copy and every move of the batch targets that one path;
    and when [moveTo] returns, every entry of the working set is the
    destination. *)
Theorem destination_without_separator_collides (pDestination : jsstring)
    (st : state World) :
  pDestination <> [] ->
  path.endsWithSeparator pDestination = false ->
  (exists k : nat,
     calls (copyTo pDestination st).2
     = calls st ++ take k (map (fun file => CopySync file pDestination)
                               (files (this st))))
  /\ (exists k : nat,
        calls (moveTo pDestination st).2
        = calls st ++ take k (map (fun file => MoveSync file pDestination)
                                  (files (this st))))
  /\ (isNormal (moveTo pDestination st).1 = true ->
      files (this (moveTo pDestination st).2)
      = replicate (length (files (this st))) pDestination).
Proof.
  intros Hne Hend.
  pose proof (verbatim_destination pDestination Hne Hend) as Hd.
  split; [|split].
  - destruct (copyTo pDestination st) as [o st'] eqn:H.
    apply copyTo_spec in H as (k & _ & _ & Hcalls & _).
    exists k. cbn [snd]. rewrite Hcalls, firstn_map. f_equal.
    apply map_ext. intros f. rewrite Hd. reflexivity.
  - destruct (moveTo pDestination st) as [o st'] eqn:H.
    apply moveTo_spec in H as (k & _ & Hcalls & _).
    exists k. cbn [snd]. rewrite Hcalls, firstn_map. f_equal.
    apply map_ext. intros f. rewrite Hd. reflexivity.
  - destruct (moveTo pDestination st) as [[n|e] st'] eqn:H; [|discriminate].
    intros _. apply moveTo_spec in H as (k & _ & _ & _ & Hthis & _).
    cbn [snd]. rewrite Hthis. cbn. apply map_constant. exact Hd.
Qed.

(** X13.  After a [moveTo] that returned, [delete] removes the moved
    entries: the removals are those of the computed destinations, in order,
    as many as were moved. *)
Theorem delete_after_moveTo_removes_the_destinations (pDestination : jsstring)
    (st st1 st2 : state World) (moved removed : Z) :
  moveTo pDestination st = (Normal moved, st1) ->
  delete st1 = (Normal removed, st2) ->
  let destinations :=
    map (targetDirectoryWithTrailingSlash pDestination) (files (this st)) in
  removed = moved
  /\ calls st2
     = calls st
       ++ map (fun file =>
                 MoveSync file (targetDirectoryWithTrailingSlash pDestination file))
              (files (this st))
       ++ map RemoveSync destinations
  /\ files (this st2) = [].
Proof.
  intros Hm Hd destinations.
  apply moveTo_spec in Hm as (k & _ & Hcalls & -> & Hthis & ->).
  apply delete_spec in Hd as (k' & _ & Hcalls' & -> & Hthis' & ->).
  rewrite firstn_all in Hcalls, Hcalls'. rewrite Hthis in *. cbn in *.
  repeat split.
  - unfold array_length. rewrite length_map. reflexivity.
  - rewrite Hcalls', Hcalls, <- app_assoc. reflexivity.
  - rewrite Hthis'. reflexivity.
Qed.

(** X14.  Nothing is written without its directory: when [ensureDirSync]
    throws on the parent directory of the pattern, [write] and [append] throw
    that exception and issue no other call, neither [existsSync] nor
    [writeFileSync] nor [appendFileSync]. *)
Theorem no_write_without_its_directory (pContent pEncoding : jsstring)
    (pNewLine : bool) (e : error) (st : state World) :
  let d := path.dirname (glob (this st)) in
  (prim_ensureDirSync d (world st)).1 = Thrown e ->
  let stopped :=
    (Thrown e,
     {| this := this st; world := (prim_ensureDirSync d (world st)).2;
        calls := calls st ++ [EnsureDirSync d] |}) in
  write pContent pEncoding st = stopped
  /\ append pContent pNewLine pEncoding st = stopped.
Proof.
  intros d H stopped. rewrite write_unfold, append_unfold. cbv zeta.
  fold d. rewrite H. split; reflexivity.
Qed.

End Batches.

(** The second of three copies onto [bundle.js] overwrites the first, the
    third the second; of three moves the second finds the path taken. *)
Lemma destination_without_separator_collides_witness :
  let d := js "bundle.js" in
  d <> [] /\ path.endsWithSeparator d = false
  /\ (copyTo d threeSources).1 = Normal 3%Z
  /\ calls (copyTo d threeSources).2
     = [CopySync (js "src/a.js") d; CopySync (js "src/b.js") d;
        CopySync (js "src/c.js") d]
  /\ Ref.readFileSync d default_encoding (world (copyTo d threeSources).2)
     = Normal (js "C")
  /\ (moveTo d threeSources).1 = Thrown (SystemError "EEXIST")
  /\ calls (moveTo d threeSources).2
     = [MoveSync (js "src/a.js") d; MoveSync (js "src/b.js") d]
  /\ files (this (moveTo d (instance (js "src/a.js") [js "src/a.js"]
                              (world threeSources))).2) = [d].
Proof.
  intros d.
  assert (Hne : d <> []) by discriminate.
  assert (Hend : path.endsWithSeparator d = false) by reflexivity.
  destruct (destination_without_separator_collides d
              (instance (js "src/a.js") [js "src/a.js"] (world threeSources))
              Hne Hend) as (_ & _ & Hone).
  split; [exact Hne|]. split; [exact Hend|].
  split; [vm_compute; reflexivity|]. split; [vm_compute; reflexivity|].
  split; [vm_compute; reflexivity|]. split; [vm_compute; reflexivity|].
  split; [vm_compute; reflexivity|].
  rewrite Hone; [reflexivity | vm_compute; reflexivity].
Defined.

Lemma empty_working_set_batches_witness :
  files (this logHoldingA) = []
  /\ delete logHoldingA = (Normal 0%Z, logHoldingA)
  /\ moveTo (js "dst/") logHoldingA = (Normal 0%Z, logHoldingA)
  /\ copyTo (js "dst/") logHoldingA = (Normal 0%Z, logHoldingA)
  /\ Ref.existsSync (glob (this logHoldingA)) (world logHoldingA) = true.
Proof.
  assert (H : files (this logHoldingA) = []) by reflexivity.
  destruct (empty_working_set_batches (js "dst/") logHoldingA H)
    as (Hd & _ & Hm & Hc & _).
  repeat split; assumption || reflexivity.
Defined.

(** The three sources deleted: a second [delete] finds nothing to do, and
    [createFolders] makes a directory named after the pattern. *)
Lemma delete_exhausts_witness :
  let st1 := (delete threeSources).2 in
  delete threeSources = (Normal 3%Z, st1)
  /\ delete st1 = (Normal 0%Z, st1)
  /\ calls (createFolders st1).2
     = calls st1 ++ [EnsureDirSync (js "src/*.js")]
  /\ Forall (fun file => Ref.existsSync file (world st1) = false)
            (files (this threeSources))
  /\ Ref.existsSync (js "src/*.js") (world st1) = false
  /\ (createFolders st1).1 = Normal tt
  /\ Ref.lstatSync (js "src/*.js") (world (createFolders st1).2)
     = Normal {| isFile := false; isDirectory := true |}.
Proof.
  intros st1.
  assert (H : delete threeSources = (Normal 3%Z, st1))
    by (apply run_eta; vm_compute; reflexivity).
  destruct (delete_exhausts [] threeSources st1 3%Z H) as (Hd & _ & _ & Hc).
  split; [exact H|]. split; [exact Hd|]. split; [exact Hc|].
  split; [repeat constructor|]. repeat split; vm_compute; reflexivity.
Defined.

Lemma delete_after_moveTo_removes_the_destinations_witness :
  let st := instance (js "src/*.js") [js "src/a.js"; js "src/b.js"]
              (disk [(js "src/a.js", js "A"); (js "src/b.js", js "B")]) in
  let st1 := (moveTo (js "dst/") st).2 in
  let st2 := (delete st1).2 in
  moveTo (js "dst/") st = (Normal 2%Z, st1)
  /\ delete st1 = (Normal 2%Z, st2)
  /\ calls st2 = [MoveSync (js "src/a.js") (js "dst/a.js");
                  MoveSync (js "src/b.js") (js "dst/b.js");
                  RemoveSync (js "dst/a.js"); RemoveSync (js "dst/b.js")]
  /\ files (this st2) = []
  /\ Forall (fun file => Ref.existsSync file (world st1) = true)
            [js "dst/a.js"; js "dst/b.js"]
  /\ Forall (fun file => Ref.existsSync file (world st2) = false)
            [js "dst/a.js"; js "dst/b.js"; js "src/a.js"; js "src/b.js"].
Proof.
  intros st st1 st2.
  assert (Hm : moveTo (js "dst/") st = (Normal 2%Z, st1))
    by (apply run_eta; vm_compute; reflexivity).
  assert (Hd : delete st1 = (Normal 2%Z, st2))
    by (apply run_eta; vm_compute; reflexivity).
  destruct (delete_after_moveTo_removes_the_destinations
              (js "dst/") st st1 st2 2%Z 2%Z Hm Hd) as (_ & Hcalls & Hfiles).
  split; [exact Hm|]. split; [exact Hd|].
  split; [rewrite Hcalls; vm_compute; reflexivity|].
  split; [exact Hfiles|]. split; repeat constructor.
Defined.

(** [notes] is a file: nothing can be written below it. *)
Lemma no_write_without_its_directory_witness :
  let st := instance (js "notes/log.txt") [] (disk [(js "notes", js "n")]) in
  (prim_ensureDirSync (path.dirname (glob (this st))) (world st)).1
  = Thrown (SystemError "ENOTDIR")
  /\ (write (js "x") default_encoding st).1 = Thrown (SystemError "ENOTDIR")
  /\ (append (js "x") true default_encoding st).1 = Thrown (SystemError "ENOTDIR")
  /\ calls (append (js "x") true default_encoding st).2 = [EnsureDirSync (js "notes")]
  /\ world (write (js "x") default_encoding st).2 = world st.
Proof.
  intros st.
  assert (H : (prim_ensureDirSync (path.dirname (glob (this st))) (world st)).1
              = Thrown (SystemError "ENOTDIR")) by (vm_compute; reflexivity).
  destruct (no_write_without_its_directory (js "x") default_encoding true
              (SystemError "ENOTDIR") st H) as [Hw Ha].
  split; [exact H|]. rewrite Hw, Ha. cbn [fst snd calls world].
  repeat split; vm_compute; reflexivity.
Defined.

(** ** [alter] and [alterJSON] *)

Section Altering.

Context {World : Type} {platform : Platform World}.
Context {value : Type} {json : Json value}.

Lemma alter_unfold
    (pHandler : option jsstring -> World -> outcome jsstring * World)
    (st : state World) :
  alter pHandler st
  = let r := read default_encoding st in
    match r.1 with
    | Thrown e => (Thrown e, r.2)
    | Normal content =>
        let handled := pHandler content (world st) in
        let st1 := {| this := this st; world := handled.2; calls := calls r.2 |} in
        match handled.1 with
        | Thrown e => (Thrown e, st1)
        | Normal altered => write altered default_encoding st1
        end
    end.
Proof.
  unfold alter, bind at 1. cbv zeta.
  pose proof (preserves_read default_encoding st) as Hthis.
  assert (Hworld : world (read default_encoding st).2 = world st).
  { rewrite read_unfold. cbv zeta. destruct (prim_existsSync _ _); reflexivity. }
  destruct (read default_encoding st) as [[content|e] s1]; [|reflexivity].
  cbn [fst snd] in *. unfold bind at 1, callback. rewrite Hthis, Hworld.
  destruct (pHandler content (world st)) as [[altered|e] w1]; reflexivity.
Qed.

(** X15.  When the handler of [alter] throws, the exception reaches the
    caller and nothing is written: the only calls issued are those of the
    read, and the world is the one the handler left. *)
Theorem alter_writes_nothing_when_the_handler_throws
    (pHandler : option jsstring -> World -> outcome jsstring * World)
    (st : state World) (content : option jsstring) (e : error) :
  (read default_encoding st).1 = Normal content ->
  (pHandler content (world st)).1 = Thrown e ->
  alter pHandler st
  = (Thrown e,
     {| this := this st; world := (pHandler content (world st)).2;
        calls := calls (read default_encoding st).2 |})
  /\ (forall c, In c (calls (alter pHandler st).2) ->
        In c (calls st) \/ c = ExistsSync (glob (this st))
        \/ c = ReadFileSync (glob (this st)) default_encoding).
Proof.
  intros Hr Hh.
  assert (E : alter pHandler st
              = (Thrown e,
                 {| this := this st; world := (pHandler content (world st)).2;
                    calls := calls (read default_encoding st).2 |})).
  { rewrite alter_unfold. cbv zeta. rewrite Hr, Hh. reflexivity. }
  split; [exact E|]. rewrite E. cbn [snd calls].
  rewrite read_unfold. cbv zeta.
  destruct (prim_existsSync _ _); cbn [snd calls]; intros c Hin;
    apply in_app_or in Hin as [Hin | Hin]; auto; cbn in Hin; intuition auto.
Qed.

(** X16.  On a platform whose files read back as the decoded bytes of what
    was written, after an [alter] that returned, [read] returns what the
    handler returned (its decoded UTF-8 form; itself when it is well formed);
    the handler was given the content read before, [null] when nothing
    existed at the pattern. *)
Theorem alter_then_read
    (pHandler : option jsstring -> World -> outcome jsstring * World)
    (st st' : state World) :
  readsBackWhatItWrote platform ->
  alter pHandler st = (Normal tt, st') ->
  let g := glob (this st) in
  exists (content : option jsstring) (altered : jsstring),
    (read default_encoding st).1 = Normal content
    /\ (prim_existsSync g (world st) = false -> content = None)
    /\ (pHandler content (world st)).1 = Normal altered
    /\ (read default_encoding st').1
       = Normal (Some (utf8_decode (utf8_encode altered)))
    /\ (isWellFormed altered = true ->
        (read default_encoding st').1 = Normal (Some altered))
    /\ this st' = this st.
Proof.
  intros Hlaw H g. rewrite alter_unfold in H. cbv zeta in H.
  destruct ((read default_encoding st).1) as [content|e] eqn:Hr; [|discriminate].
  destruct ((pHandler content (world st)).1) as [altered|e] eqn:Hh; [|discriminate].
  exists content, altered. split; [reflexivity|]. split.
  { intros Hmissing. rewrite read_unfold in Hr. cbv zeta in Hr. fold g in Hr.
    rewrite Hmissing in Hr. cbn in Hr. congruence. }
  split; [exact Hh|].
  rewrite write_unfold in H. cbv zeta in H. cbn [this world calls] in H.
  destruct ((prim_ensureDirSync _ _).1) as [[]|e]; [|discriminate].
  destruct (prim_writeFileSync _ _ _ _) as [o w'] eqn:Hw.
  cbn [fst snd] in H. injection H as -> <-.
  destruct (Hlaw _ _ _ _ Hw) as [Hexists Hread].
  assert (Hafter : forall cs,
            (read default_encoding
               {| this := this st; world := w'; calls := cs |}).1
            = Normal (Some (utf8_decode (utf8_encode altered)))).
  { intros cs. rewrite read_unfold. cbn [this world glob]. cbv zeta.
    rewrite Hexists, Hread. reflexivity. }
  split; [apply Hafter|]. split; [|reflexivity].
  intros Hwf. rewrite Hafter, utf8_roundtrip by exact Hwf. reflexivity.
Qed.

Lemma alterJSON_unfold (pHandler : value -> World -> outcome value * World)
    (pSpaces : option N) (st : state World) :
  alterJSON pHandler pSpaces st
  = let r := read default_encoding st in
    match r.1 with
    | Thrown e => (Thrown e, r.2)
    | Normal None => (Thrown (TypeError "Cannot read properties of null"), r.2)
    | Normal (Some text) =>
        match JSON_parse text with
        | Thrown e => (Thrown e, r.2)
        | Normal parsed =>
            let handled := pHandler parsed (world st) in
            let st1 := {| this := this st; world := handled.2; calls := calls r.2 |} in
            match handled.1 with
            | Thrown e => (Thrown e, st1)
            | Normal altered =>
                match JSON_stringify altered pSpaces with
                | Thrown e => (Thrown e, st1)
                | Normal text' => write text' default_encoding st1
                end
            end
        end
    end.
Proof.
  unfold alterJSON, bind at 1. cbv zeta.
  pose proof (preserves_read default_encoding st) as Hthis.
  assert (Hworld : world (read default_encoding st).2 = world st).
  { rewrite read_unfold. cbv zeta. destruct (prim_existsSync _ _); reflexivity. }
  destruct (read default_encoding st) as [[[text|]|e] s1]; try reflexivity.
  cbn [fst snd] in *. unfold bind at 1, ret at 1. unfold bind at 1, lift at 1.
  destruct (JSON_parse text) as [parsed|e]; [|reflexivity].
  unfold bind at 1, callback. rewrite Hthis, Hworld.
  destruct (pHandler parsed (world st)) as [[altered|e] w1]; [|reflexivity].
  cbn [fst snd]. unfold bind at 1, lift.
  destruct (JSON_stringify altered pSpaces); reflexivity.
Qed.

(** X17.  [alterJSON] on a target that does not exist throws a [TypeError]
    ([read] returned [null]): the handler is not called, nothing is parsed or
    written, and the only call issued is [existsSync]. *)
Theorem alterJSON_of_a_missing_target
    (pHandler : value -> World -> outcome value * World) (pSpaces : option N)
    (st : state World) :
  prim_existsSync (glob (this st)) (world st) = false ->
  exists message,
    alterJSON pHandler pSpaces st
    = (Thrown (TypeError message),
       {| this := this st; world := world st;
          calls := calls st ++ [ExistsSync (glob (this st))] |}).
Proof.
  intros H. rewrite alterJSON_unfold, read_unfold. cbv zeta. rewrite H.
  cbn [fst snd]. eexists. reflexivity.
Qed.

(** X18.  [alterJSON] on content that [JSON.parse] refuses throws the
    exception of [JSON.parse]: the handler is not called, nothing is written,
    and the world is unchanged. *)
Theorem alterJSON_of_malformed_content
    (pHandler : value -> World -> outcome value * World) (pSpaces : option N)
    (st : state World) (text : jsstring) (e : error) :
  (read default_encoding st).1 = Normal (Some text) ->
  JSON_parse text = Thrown e ->
  alterJSON pHandler pSpaces st
  = (Thrown e,
     {| this := this st; world := world st;
        calls := calls st ++ [ExistsSync (glob (this st));
                              ReadFileSync (glob (this st)) default_encoding] |}).
Proof.
  intros Hr Hp. rewrite alterJSON_unfold. cbv zeta. rewrite Hr, Hp.
  rewrite read_unfold in *. cbv zeta in *.
  destruct (prim_existsSync _ _); [reflexivity | discriminate].
Qed.

(** X19.  On a platform whose files read back as the decoded bytes of what
    was written, an [alterJSON] that returned has read the file, parsed it,
    handed the value to the handler, serialized the result and written it,
    with these four platform calls in this order; [read] then returns the
    serialized text (its decoded UTF-8 form; itself when well formed). *)
Theorem alterJSON_then_read
    (pHandler : value -> World -> outcome value * World) (pSpaces : option N)
    (st st' : state World) :
  readsBackWhatItWrote platform ->
  alterJSON pHandler pSpaces st = (Normal tt, st') ->
  let g := glob (this st) in
  exists (text : jsstring) (parsed altered : value) (text' : jsstring),
    (read default_encoding st).1 = Normal (Some text)
    /\ JSON_parse text = Normal parsed
    /\ (pHandler parsed (world st)).1 = Normal altered
    /\ JSON_stringify altered pSpaces = Normal text'
    /\ calls st'
       = calls st ++ [ExistsSync g; ReadFileSync g default_encoding;
                      EnsureDirSync (path.dirname g);
                      WriteFileSync g text' default_encoding]
    /\ (read default_encoding st').1
       = Normal (Some (utf8_decode (utf8_encode text')))
    /\ (isWellFormed text' = true ->
        (read default_encoding st').1 = Normal (Some text')).
Proof.
  intros Hlaw H g. rewrite alterJSON_unfold in H. cbv zeta in H.
  destruct ((read default_encoding st).1) as [[text|]|e] eqn:Hr; try discriminate.
  destruct (JSON_parse text) as [parsed|e] eqn:Hp; [|discriminate].
  destruct ((pHandler parsed (world st)).1) as [altered|e] eqn:Hh; [|discriminate].
  destruct (JSON_stringify altered pSpaces) as [text'|e] eqn:Hs; [|discriminate].
  exists text, parsed, altered, text'.
  split; [reflexivity|]. split; [exact Hp|]. split; [exact Hh|]. split; [exact Hs|].
  assert (Hcalls : calls (read default_encoding st).2
                   = calls st ++ [ExistsSync g; ReadFileSync g default_encoding]).
  { rewrite read_unfold in *. cbv zeta in *. fold g in Hr |- *.
    destruct (prim_existsSync g (world st)); [reflexivity | discriminate]. }
  rewrite write_unfold in H. cbv zeta in H. cbn [this world calls] in H.
  destruct ((prim_ensureDirSync _ _).1) as [[]|e]; [|discriminate].
  destruct (prim_writeFileSync _ _ _ _) as [o w'] eqn:Hw.
  cbn [fst snd] in H. injection H as -> <-.
  destruct (Hlaw _ _ _ _ Hw) as [Hexists Hread].
  assert (Hafter : forall cs,
            (read default_encoding
               {| this := this st; world := w'; calls := cs |}).1
            = Normal (Some (utf8_decode (utf8_encode text')))).
  { intros cs. rewrite read_unfold. cbn [this world glob]. cbv zeta.
    rewrite Hexists, Hread. reflexivity. }
  split.
  { cbn [calls]. rewrite Hcalls, <- app_assoc. reflexivity. }
  split; [apply Hafter|].
  intros Hwf. rewrite Hafter, utf8_roundtrip by exact Hwf. reflexivity.
Qed.

End Altering.

Section Blind.

Context {World : Type} {platform : Platform World}.

(** X20.  [exists] answers from the working set, not from the disk: after
    [Files.new(p)] and a [write] that returned, the file is on disk and
    [read] returns its content, and [exists()] is still [false]. *)
Theorem exists_does_not_see_a_written_file (pPath pContent : jsstring)
    (st0 st' : state World) :
  readsBackWhatItWrote platform ->
  (new pPath ;; write pContent default_encoding) st0 = (Normal tt, st') ->
  exists_ st' = (Normal false, st')
  /\ prim_existsSync pPath (world st') = true
  /\ (read default_encoding st').1
     = Normal (Some (utf8_decode (utf8_encode pContent))).
Proof.
  intros Hlaw H.
  assert (Hnew : new pPath st0
                 = (Normal tt,
                    {| this := {| glob := pPath; files := [] |};
                       world := world st0; calls := calls st0 |}))
    by (unfold new; rewrite constructor_unfold; reflexivity).
  rewrite (bind_returns _ _ _ _ _ Hnew) in H.
  rewrite write_unfold in H. cbv zeta in H. cbn [this world calls glob] in H.
  destruct ((prim_ensureDirSync _ _).1) as [[]|e]; [|discriminate].
  destruct (prim_writeFileSync _ _ _ _) as [o w'] eqn:Hw.
  cbn [fst snd] in H. injection H as -> <-.
  destruct (Hlaw _ _ _ _ Hw) as [Hexists Hread].
  split; [reflexivity|]. split; [exact Hexists|].
  rewrite read_unfold. cbn [this world glob]. cbv zeta.
  rewrite Hexists, Hread. reflexivity.
Qed.

End Blind.

(** A handler that throws, one that appends a mark, and a missing target. *)
Lemma alter_writes_nothing_when_the_handler_throws_witness :
  let failing := fun (_ : option jsstring) (w : Ref.World) =>
    (Thrown (TypeError "handler") : outcome jsstring, w) in
  (read default_encoding logHoldingA).1 = Normal (Some (js "a"))
  /\ (alter failing logHoldingA).1 = Thrown (TypeError "handler")
  /\ world (alter failing logHoldingA).2 = world logHoldingA
  /\ calls (alter failing logHoldingA).2
     = [ExistsSync (js "notes/log.txt");
        ReadFileSync (js "notes/log.txt") default_encoding].
Proof.
  intros failing.
  assert (Hr : (read default_encoding logHoldingA).1 = Normal (Some (js "a")))
    by (vm_compute; reflexivity).
  destruct (alter_writes_nothing_when_the_handler_throws failing logHoldingA
              (Some (js "a")) (TypeError "handler") Hr eq_refl) as [E _].
  split; [exact Hr|]. rewrite E. cbn [fst snd world calls].
  split; [reflexivity|]. split; [reflexivity|]. vm_compute. reflexivity.
Defined.

Lemma alter_then_read_witness :
  let mark := fun (content : option jsstring) (w : Ref.World) =>
    (Normal (match content with Some s => s ++ js "!" | None => js "new" end), w) in
  readsBackWhatItWrote Ref.platform
  /\ (alter mark logHoldingA).1 = Normal tt
  /\ (read default_encoding (alter mark logHoldingA).2).1 = Normal (Some (js "a!"))
  /\ (alter mark logMissing).1 = Normal tt
  /\ (read default_encoding (alter mark logMissing).2).1 = Normal (Some (js "new")).
Proof.
  intros mark.
  assert (H1 : alter mark logHoldingA = (Normal tt, (alter mark logHoldingA).2))
    by (apply run_eta; vm_compute; reflexivity).
  split; [exact Ref_readsBackWhatItWrote|]. split; [rewrite H1; reflexivity|].
  destruct (alter_then_read mark logHoldingA _ Ref_readsBackWhatItWrote H1)
    as (content & altered & Hr & _ & Hh & _ & Hwf & _).
  assert (Hc : content = Some (js "a")).
  { assert (E : (read default_encoding logHoldingA).1 = Normal (Some (js "a")))
      by (vm_compute; reflexivity).
    rewrite E in Hr. injection Hr as <-. reflexivity. }
  subst content. cbn in Hh. injection Hh as <-.
  split; [apply Hwf; reflexivity|].
  split; vm_compute; reflexivity.
Defined.

Lemma alterJSON_of_a_missing_target_witness :
  let flip := fun (v : literal) (w : Ref.World) =>
    (Normal (match v with JTrue => JFalse | JFalse => JTrue | JNull => JNull end), w) in
  prim_existsSync (glob (this logMissing)) (world logMissing) = false
  /\ (exists message,
        (alterJSON flip (Some 2) logMissing).1 = Thrown (TypeError message))
  /\ world (alterJSON flip (Some 2) logMissing).2 = world logMissing
  /\ calls (alterJSON flip (Some 2) logMissing).2 = [ExistsSync (js "notes/log.txt")].
Proof.
  intros flip.
  assert (H : prim_existsSync (glob (this logMissing)) (world logMissing) = false)
    by reflexivity.
  destruct (alterJSON_of_a_missing_target flip (Some 2) logMissing H) as [message E].
  split; [exact H|]. rewrite E. cbn [fst snd world calls].
  split; [exists message; reflexivity|]. split; reflexivity.
Defined.

Lemma alterJSON_of_malformed_content_witness :
  let flip := fun (v : literal) (w : Ref.World) =>
    (Normal (match v with JTrue => JFalse | JFalse => JTrue | JNull => JNull end), w) in
  (read default_encoding logHoldingA).1 = Normal (Some (js "a"))
  /\ JSON_parse (js "a") = Thrown (SyntaxError "Unexpected token")
  /\ (alterJSON flip (Some 2) logHoldingA).1
     = Thrown (SyntaxError "Unexpected token")
  /\ world (alterJSON flip (Some 2) logHoldingA).2 = world logHoldingA.
Proof.
  intros flip.
  assert (Hr : (read default_encoding logHoldingA).1 = Normal (Some (js "a")))
    by (vm_compute; reflexivity).
  assert (Hp : JSON_parse (js "a") = Thrown (SyntaxError "Unexpected token"))
    by reflexivity.
  rewrite (alterJSON_of_malformed_content flip (Some 2) logHoldingA (js "a")
             (SyntaxError "Unexpected token") Hr Hp).
  repeat split; assumption.
Defined.

(** The document [true], with white space around it, flipped to [false]. *)
Lemma alterJSON_then_read_witness :
  let flip := fun (v : literal) (w : Ref.World) =>
    (Normal (match v with JTrue => JFalse | JFalse => JTrue | JNull => JNull end), w) in
  let st := instance (js "conf/flag.json") []
              (disk [(js "conf/flag.json", js " true" ++ [LINE_FEED])]) in
  readsBackWhatItWrote Ref.platform
  /\ (alterJSON flip (Some 2) st).1 = Normal tt
  /\ (read default_encoding (alterJSON flip (Some 2) st).2).1
     = Normal (Some (js "false")).
Proof.
  intros flip st.
  assert (H : alterJSON flip (Some 2) st = (Normal tt, (alterJSON flip (Some 2) st).2))
    by (apply run_eta; vm_compute; reflexivity).
  split; [exact Ref_readsBackWhatItWrote|]. split; [rewrite H; reflexivity|].
  destruct (alterJSON_then_read flip (Some 2) st _ Ref_readsBackWhatItWrote H)
    as (text & parsed & altered & text' & Hr & Hp & Hh & Hs & _ & Hread & _).
  rewrite Hread.
  assert (Et : text = js " true" ++ [LINE_FEED]).
  { assert (E : (read default_encoding st).1 = Normal (Some (js " true" ++ [LINE_FEED])))
      by (vm_compute; reflexivity).
    rewrite E in Hr. injection Hr as <-. reflexivity. }
  subst text. cbn in Hp. injection Hp as <-. cbn in Hh. injection Hh as <-.
  cbn in Hs. injection Hs as <-. vm_compute. reflexivity.
Defined.

Lemma exists_does_not_see_a_written_file_witness :
  let run := (new (js "notes/log.txt") ;; write (js "a") default_encoding) Ref.boot in
  readsBackWhatItWrote Ref.platform
  /\ run.1 = Normal tt
  /\ (exists_ run.2).1 = Normal false
  /\ Ref.existsSync (js "notes/log.txt") (world run.2) = true.
Proof.
  intros run.
  assert (H1 : run.1 = Normal tt) by (vm_compute; reflexivity).
  assert (H : (new (js "notes/log.txt") ;; write (js "a") default_encoding) Ref.boot
              = (Normal tt, run.2)) by (apply run_eta; exact H1).
  destruct (exists_does_not_see_a_written_file (js "notes/log.txt") (js "a")
              Ref.boot run.2 Ref_readsBackWhatItWrote H) as (He & Hx & _).
  split; [exact Ref_readsBackWhatItWrote|]. split; [exact H1|].
  split; [rewrite He; reflexivity | exact Hx].
Defined.
